(** * The public-key JNI bridge of matrix-olm-java (jni/native/olm_pk.cpp)

    A shallow embedding of the eight JNI entry points of [olm_pk.cpp]
    together with the native memory, the managed message objects and the
    engine calls they act on.

    - Native memory is a finite map from addresses to cells; a cell that
      has been given back keeps the bytes it held at that moment, so that
      what is left behind by [free] can be inspected.
    - Undefined behaviour of the C++ code (touching a block that was
      freed, freeing twice, running past the end of a block) is the
      outcome [Fault].
    - The cryptographic engine (libolm's pk module) is an interface,
      [Engine]; the bridge is verified for every implementation of it.
    - Logging ([LOGD], [LOGE]) is left out. *)

From Stdlib Require Import Strings.Byte.
From stdpp Require Import gmap strings list fin_maps.

Local Open Scope N_scope.

(** ** The engine interface (olm/pk.h as the bridge uses it)

    A context is an opaque block of native memory; the engine's view of
    such a block is a value of [enc_state] or [dec_state].  Every
    operation is a function of the context and of the bytes it is handed;
    it yields the [size_t] it returns, the bytes it writes to each output
    buffer (the bridge clips them to the capacity it announced) and the
    context it leaves behind.  [olm_error] is the sentinel return value. *)
Class Engine := {
  enc_state : Type;
  dec_state : Type;
  olm_error : N;
  olm_pk_key_length : N;
  (* encryption *)
  olm_pk_encryption_size : N;
  olm_pk_encryption : enc_state;
  olm_clear_pk_encryption : enc_state → enc_state;
  olm_pk_encryption_last_error : enc_state → string;
  olm_pk_encryption_set_recipient_key : enc_state → list byte → N * enc_state;
  olm_pk_ciphertext_length : enc_state → N → N;
  olm_pk_mac_length : enc_state → N;
  olm_pk_encrypt_random_length : enc_state → N;
  olm_pk_encrypt :
    enc_state → list byte (* plaintext *) → N → N → N (* capacities *) →
    list byte (* random *) →
    N * list byte * list byte * list byte * enc_state;
  (* decryption *)
  olm_pk_decryption_size : N;
  olm_pk_decryption : dec_state;
  olm_clear_pk_decryption : dec_state → dec_state;
  olm_pk_decryption_last_error : dec_state → string;
  olm_pk_generate_key_random_length : N;
  olm_pk_generate_key :
    dec_state → N (* key capacity *) → list byte (* random *) →
    N * list byte * dec_state;
  olm_pk_max_plaintext_length : dec_state → N → N;
  olm_pk_decrypt :
    dec_state → list byte (* ephemeral key *) → list byte (* MAC *) →
    list byte (* ciphertext *) → N (* plaintext capacity *) →
    N * list byte (* ciphertext buffer afterwards *) * list byte * dec_state
}.

(** The engine entry points that take a context, as they appear in the
    call log. *)
Inductive olm_fn :=
  | fn_pk_encryption | fn_clear_pk_encryption | fn_pk_encryption_last_error
  | fn_pk_encryption_set_recipient_key | fn_pk_ciphertext_length
  | fn_pk_mac_length | fn_pk_encrypt_random_length | fn_pk_encrypt
  | fn_pk_decryption | fn_clear_pk_decryption | fn_pk_decryption_last_error
  | fn_pk_generate_key | fn_pk_max_plaintext_length | fn_pk_decrypt.

(** One logged engine call: the function, the context address, the
    addresses of the buffers it was given and the bytes it read from its
    input buffers. *)
Record call := Call {
  call_fn : olm_fn;
  call_ctx : N;
  call_bufs : list N;
  call_inputs : list (list byte)
}.

(** ** Managed objects

    [thiz] carries the handle in its [mNativeId] field.  A message object
    is known by the fields its class declares and the (possibly null)
    strings they hold; a string is the list of its modified-UTF-8 bytes. *)
Record jobject_thiz := Thiz { mNativeId : N }.

Record jobject := JObject {
  declared : list string;
  slots : gmap string (list byte)
}.

Section Bridge.
Context `{E : Engine}.

(** ** Native memory *)

(** Who handed out a byte buffer: [malloc], or the JNI (an array or
    string view). *)
Inductive origin := Native | JniView.

Inductive payload :=
  | Buf (o : origin) (bs : list byte)
  | EncCtx (s : enc_state)
  | DecCtx (s : dec_state).

Inductive cell :=
  | Live (c : payload)
  | Freed (residue : payload).

Record state := State {
  heap : gmap N cell;               (* native memory, address 0 is NULL *)
  objs : gmap N jobject;            (* managed message objects, reference 0 is null *)
  sched : list (option byte);       (* coming allocation outcomes: None fails,
                                       Some b succeeds with a block of junk b *)
  entropy : list byte;              (* what the secure random provider still has *)
  calls : list call;                (* engine calls so far, latest first *)
  pending : option string           (* the pending java.lang.Exception, if any *)
}.

Definition set_heap (f : gmap N cell → gmap N cell) (s : state) : state :=
  State (f (heap s)) (objs s) (sched s) (entropy s) (calls s) (pending s).
Definition set_objs (f : gmap N jobject → gmap N jobject) (s : state) : state :=
  State (heap s) (f (objs s)) (sched s) (entropy s) (calls s) (pending s).
Definition set_sched (sc : list (option byte)) (s : state) : state :=
  State (heap s) (objs s) sc (entropy s) (calls s) (pending s).
Definition set_entropy (en : list byte) (s : state) : state :=
  State (heap s) (objs s) (sched s) en (calls s) (pending s).
Definition add_call (c : call) (s : state) : state :=
  State (heap s) (objs s) (sched s) (entropy s) (c :: calls s) (pending s).
Definition set_pending (m : string) (s : state) : state :=
  State (heap s) (objs s) (sched s) (entropy s) (calls s) (Some m).

(** ** The monad of native code: state, and [Fault] for undefined behaviour *)
Inductive result (A : Type) :=
  | Fault (why : string)
  | Done (a : A) (s : state).
Global Arguments Fault {A} why.
Global Arguments Done {A} a s.

Definition M (A : Type) : Type := state → result A.

Global Instance M_ret : MRet M := λ A a s, Done a s.
Global Instance M_bind : MBind M := λ A B k m s,
  match m s with
  | Fault w => Fault w
  | Done a s' => k a s'
  end.
Definition fault {A} (why : string) : M A := λ _, Fault why.
Definition modify (f : state → state) : M unit := λ s, Done tt (f s).
Definition gets {A} (f : state → A) : M A := λ s, Done (f s) s.

Definition when (b : bool) (m : M unit) : M unit := if b then m else mret tt.

(** A pointer is tested the way C tests it: non-null is true. *)
Definition nonnull (p : N) : bool := negb (p =? 0).

(** *** Allocation *)
Definition fresh_ptr (h : gmap N cell) : N := fresh ({[0]} ∪ dom h).

Definition alloc (c : payload) : M N := λ s,
  let p := fresh_ptr (heap s) in
  Done p (set_heap <[p := Live c]> s).

(** [malloc n]: the next scheduled outcome decides; with nothing
    scheduled the allocation succeeds.  The new block holds junk. *)
Definition next_outcome (sc : list (option byte)) : option byte * list (option byte) :=
  match sc with
  | [] => (Some x00, [])
  | o :: rest => (o, rest)
  end.

Definition allocate (o : origin) (content : byte → list byte) : M N := λ s,
  let '(out, rest) := next_outcome (sched s) in
  match out with
  | None => Done 0 (set_sched rest s)
  | Some junk => alloc (Buf o (content junk)) (set_sched rest s)
  end.

Definition malloc (n : N) : M N :=
  allocate Native (λ junk, replicate (N.to_nat n) junk).

(** [free p] with [p] non-null: the block must be live and must come
    from [malloc]; its bytes stay behind as residue. *)
Definition release (o : origin) (p : N) : M unit := λ s,
  match heap s !! p with
  | Some (Live (Buf o' bs)) =>
      match o, o' with
      | Native, Native | JniView, JniView =>
          Done tt (set_heap <[p := Freed (Buf o' bs)]> s)
      | _, _ => Fault "release through the wrong interface"
      end
  | Some (Live c) =>
      match o with
      | Native => Done tt (set_heap <[p := Freed c]> s)
      | JniView => Fault "release through the wrong interface"
      end
  | Some (Freed _) => Fault "double free"
  | None => Fault "free of an address that is not a block"
  end.

Definition free (p : N) : M unit := release Native p.

(** *** Access to byte buffers *)
Definition load (p : N) : M payload := λ s,
  match heap s !! p with
  | Some (Live c) => Done c s
  | Some (Freed _) => Fault "use after free"
  | None => Fault "access to an address that is not a block"
  end.

Definition store (p : N) (c : payload) : M unit :=
  _ ← load p;
  modify (set_heap <[p := Live c]>).

Definition load_buf (p : N) : M (origin * list byte) :=
  c ← load p;
  match c with
  | Buf o bs => mret (o, bs)
  | _ => fault "byte access to a context"
  end.

(** The first [n] bytes of the block at [p]. *)
Definition read_bytes (p n : N) : M (list byte) :=
  '(_, bs) ← load_buf p;
  if (N.to_nat n <=? length bs)%nat then mret (take (N.to_nat n) bs)
  else fault "read past the end of a block".

(** Overwrite the block at [p] from offset [off] on with [new]. *)
Definition splice (off : nat) (new old : list byte) : list byte :=
  take off old ++ new ++ drop (off + length new) old.

Definition write_bytes (p : N) (off : N) (new : list byte) : M unit :=
  '(o, bs) ← load_buf p;
  if (N.to_nat off + length new <=? length bs)%nat
  then store p (Buf o (splice (N.to_nat off) new bs))
  else fault "write past the end of a block".

Definition memset (p : N) (b : byte) (n : N) : M unit :=
  write_bytes p 0 (replicate (N.to_nat n) b).

Definition memcpy (dst src n : N) : M unit :=
  bs ← read_bytes src n;
  write_bytes dst 0 bs.

(** The C string that starts at [p]: the bytes before the first NUL. *)
Fixpoint until_nul (bs : list byte) : option (list byte) :=
  match bs with
  | [] => None
  | b :: rest =>
      if Byte.eqb b x00 then Some []
      else cons b <$> until_nul rest
  end.

Definition c_string (p : N) : M (list byte) :=
  '(_, bs) ← load_buf p;
  match until_nul bs with
  | Some s => mret s
  | None => fault "unterminated string"
  end.

(** Two observations of an outcome, for statements about concrete runs. *)
Definition freed_at (p : N) (s : state) : bool :=
  match heap s !! p with
  | Some (Freed _) => true
  | _ => false
  end.

(** The bytes of a cell that is, or was, a view handed out by the JNI. *)
Definition view_bytes (c : cell) : option (list byte) :=
  match c with
  | Live (Buf JniView bs) | Freed (Buf JniView bs) => Some bs
  | _ => None
  end.

Definition fault_of {A} (r : result A) : option string :=
  match r with
  | Fault w => Some w
  | Done _ _ => None
  end.

(** ** The engine at work on native memory

    Each wrapper reads the context and the input buffers from memory,
    runs the engine's function, writes what it produced back (clipped to
    the capacity that was passed) and logs the call. *)
Definition log (c : call) : M unit := modify (add_call c).

Definition load_enc (p : N) : M enc_state :=
  c ← load p;
  match c with
  | EncCtx s => mret s
  | _ => fault "not an encryption context"
  end.

Definition load_dec (p : N) : M dec_state :=
  c ← load p;
  match c with
  | DecCtx s => mret s
  | _ => fault "not a decryption context"
  end.

Definition clip (n : N) (bs : list byte) : list byte := take (N.to_nat n) bs.

Definition native_olm_pk_encryption (p : N) : M N :=
  '(_, bs) ← load_buf p;
  if (N.to_nat olm_pk_encryption_size <=? length bs)%nat then
    store p (EncCtx olm_pk_encryption);;
    log (Call fn_pk_encryption p [] []);;
    mret p
  else fault "context block too small".

Definition native_olm_clear_pk_encryption (p : N) : M unit :=
  s ← load_enc p;
  store p (EncCtx (olm_clear_pk_encryption s));;
  log (Call fn_clear_pk_encryption p [] []).

Definition native_olm_pk_encryption_last_error (p : N) : M string :=
  s ← load_enc p;
  log (Call fn_pk_encryption_last_error p [] []);;
  mret (olm_pk_encryption_last_error s).

Definition native_olm_pk_encryption_set_recipient_key (p key len : N) : M N :=
  s ← load_enc p;
  k ← read_bytes key len;
  let '(r, s') := olm_pk_encryption_set_recipient_key s k in
  store p (EncCtx s');;
  log (Call fn_pk_encryption_set_recipient_key p [key] [k]);;
  mret r.

Definition native_olm_pk_ciphertext_length (p n : N) : M N :=
  s ← load_enc p;
  log (Call fn_pk_ciphertext_length p [] []);;
  mret (olm_pk_ciphertext_length s n).

Definition native_olm_pk_mac_length (p : N) : M N :=
  s ← load_enc p;
  log (Call fn_pk_mac_length p [] []);;
  mret (olm_pk_mac_length s).

Definition native_olm_pk_encrypt_random_length (p : N) : M N :=
  s ← load_enc p;
  log (Call fn_pk_encrypt_random_length p [] []);;
  mret (olm_pk_encrypt_random_length s).

Definition native_olm_pk_encrypt
    (p pt ptlen ct ctlen mac maclen eph ephlen rnd rndlen : N) : M N :=
  s ← load_enc p;
  plain ← read_bytes pt ptlen;
  random ← read_bytes rnd rndlen;
  let '(r, ctB, macB, ephB, s') :=
    olm_pk_encrypt s plain ctlen maclen ephlen random in
  write_bytes ct 0 (clip ctlen ctB);;
  write_bytes mac 0 (clip maclen macB);;
  write_bytes eph 0 (clip ephlen ephB);;
  store p (EncCtx s');;
  log (Call fn_pk_encrypt p [pt; ct; mac; eph; rnd] [plain; random]);;
  mret r.

Definition native_olm_pk_decryption (p : N) : M N :=
  '(_, bs) ← load_buf p;
  if (N.to_nat olm_pk_decryption_size <=? length bs)%nat then
    store p (DecCtx olm_pk_decryption);;
    log (Call fn_pk_decryption p [] []);;
    mret p
  else fault "context block too small".

Definition native_olm_clear_pk_decryption (p : N) : M unit :=
  s ← load_dec p;
  store p (DecCtx (olm_clear_pk_decryption s));;
  log (Call fn_clear_pk_decryption p [] []).

Definition native_olm_pk_decryption_last_error (p : N) : M string :=
  s ← load_dec p;
  log (Call fn_pk_decryption_last_error p [] []);;
  mret (olm_pk_decryption_last_error s).

Definition native_olm_pk_generate_key (p pk pklen rnd rndlen : N) : M N :=
  s ← load_dec p;
  random ← read_bytes rnd rndlen;
  let '(r, pkB, s') := olm_pk_generate_key s pklen random in
  write_bytes pk 0 (clip pklen pkB);;
  store p (DecCtx s');;
  log (Call fn_pk_generate_key p [pk; rnd] [random]);;
  mret r.

Definition native_olm_pk_max_plaintext_length (p n : N) : M N :=
  s ← load_dec p;
  log (Call fn_pk_max_plaintext_length p [] []);;
  mret (olm_pk_max_plaintext_length s n).

Definition native_olm_pk_decrypt
    (p eph ephlen mac maclen ct ctlen pt maxlen : N) : M N :=
  s ← load_dec p;
  ephB ← read_bytes eph ephlen;
  macB ← read_bytes mac maclen;
  ctB ← read_bytes ct ctlen;
  let '(r, ctB', ptB, s') := olm_pk_decrypt s ephB macB ctB maxlen in
  write_bytes ct 0 (clip ctlen ctB');;
  write_bytes pt 0 (clip maxlen ptB);;
  store p (DecCtx s');;
  log (Call fn_pk_decrypt p [eph; mac; ct; pt] [ephB; macB; ctB]);;
  mret r.

(** ** The JNI environment, as far as the bridge uses it *)

(** A copy of the array's elements, or NULL. *)
Definition GetByteArrayElements (arr : list byte) : M N :=
  allocate JniView (λ _, arr).
(** Mode [JNI_ABORT]: the copy is given back and nothing is written to
    the array. *)
Definition ReleaseByteArrayElements (p : N) : M unit := release JniView p.
Definition GetArrayLength (arr : list byte) : N := N.of_nat (length arr).

(** The class of an object is the list of the fields it declares.  The
    JNI forbids a null reference here. *)
Definition GetObjectClass (ref : N) : M (option (list string)) :=
  if ref =? 0 then fault "GetObjectClass on a null reference"
  else gets (λ s, declared <$> objs s !! ref).

Definition GetFieldID (cls : list string) (name : string) : option string :=
  if decide (name ∈ cls) then Some name else None.

Definition field_of (s : state) (ref : N) (fid : string) : option (list byte) :=
  o ← objs s !! ref; slots o !! fid.

Definition GetObjectField (ref : N) (fid : string) : M (option (list byte)) :=
  gets (λ s, field_of s ref fid).

Definition SetObjectField (ref : N) (fid : string) (v : list byte) : M unit :=
  modify (set_objs (alter (λ o, JObject (declared o) (<[fid := v]> (slots o))) ref)).

(** The characters of a string, NUL-terminated, or NULL. *)
Definition GetStringUTFChars (str : list byte) : M N :=
  allocate JniView (λ _, str ++ [x00]).
Definition GetStringUTFLength (str : list byte) : N := N.of_nat (length str).
Definition ReleaseStringUTFChars (p : N) : M unit := release JniView p.

Definition NewStringUTF (p : N) : M (list byte) := c_string p.

Definition NewByteArray (n : N) : M (list byte) :=
  mret (replicate (N.to_nat n) x00).

Definition SetByteArrayRegion (arr : list byte) (start len buf : N) : M (list byte) :=
  bs ← read_bytes buf len;
  if (N.to_nat start + N.to_nat len <=? length arr)%nat
  then mret (splice (N.to_nat start) bs arr)
  else fault "array index out of bounds".

Definition ThrowNew (msg : string) : M unit := modify (set_pending msg).

(** ** Helpers of the bridge that live outside olm_pk.cpp *)

(** Modelled from the spec: [getPkEncryptionInstanceId] and
    [getPkDecryptionInstanceId] are defined in the JNI helper file, which
    is not among the sources.  The handle is "an integer-sized opaque
    reference (native pointer value) passed back to the caller; the only
    thing the caller holds between calls": the helpers read it from the
    managed object. *)
Definition getPkEncryptionInstanceId (thiz : jobject_thiz) : N := mNativeId thiz.
Definition getPkDecryptionInstanceId (thiz : jobject_thiz) : N := mNativeId thiz.

(** Modelled from the spec: [setRandomInBuffer] is defined in the JNI
    helper file, which is not among the sources.  It must "allocate and
    fill a random buffer via the Secure Random Provider of exactly the
    required length"; the provider "supplies exactly N cryptographically
    secure random bytes on demand" and its failure is reported, never
    papered over.  The result is the success flag together with the
    pointer left in the caller's variable. *)
Definition setRandomInBuffer (aRandomSize : N) : M (bool * N) :=
  p ← malloc aRandomSize;
  if nonnull p then
    en ← gets entropy;
    if (N.to_nat aRandomSize <=? length en)%nat then
      write_bytes p 0 (take (N.to_nat aRandomSize) en);;
      modify (set_entropy (drop (N.to_nat aRandomSize) en));;
      mret (true, p)
    else mret (false, p)
  else mret (false, 0).

(** ** olm_pk.cpp: the encryption bridge *)

Definition initializePkEncryptionMemory : M N :=
  let encryptionSize := olm_pk_encryption_size in
  encryptionPtr ← malloc encryptionSize;
  if nonnull encryptionPtr then native_olm_pk_encryption encryptionPtr
  else mret encryptionPtr.

Definition createNewPkEncryptionJni : M N :=
  encryptionPtr ← initializePkEncryptionMemory;
  let errorMessage :=
    if nonnull encryptionPtr then None else Some "init encryption OOM"%string in
  match errorMessage with
  | Some msg =>
      when (nonnull encryptionPtr)
        (native_olm_clear_pk_encryption encryptionPtr;; free encryptionPtr);;
      ThrowNew msg
  | None => mret tt
  end;;
  mret encryptionPtr.

Definition releasePkEncryptionJni (thiz : jobject_thiz) : M unit :=
  let encryptionPtr := getPkEncryptionInstanceId thiz in
  if nonnull encryptionPtr then
    native_olm_clear_pk_encryption encryptionPtr;;
    free encryptionPtr
  else mret tt.

Definition setRecipientKeyJni (thiz : jobject_thiz) (aKeyBuffer : option (list byte)) : M unit :=
  let encryptionPtr := getPkEncryptionInstanceId thiz in
  '(errorMessage, keyPtr) ←
    (if nonnull encryptionPtr then
       match aKeyBuffer with
       | None => mret (Some "invalid key"%string, 0)
       | Some key =>
           keyPtr ← GetByteArrayElements key;
           if nonnull keyPtr then
             r ← native_olm_pk_encryption_set_recipient_key
                   encryptionPtr keyPtr (GetArrayLength key);
             if r =? olm_error then
               errorMessage ← native_olm_pk_encryption_last_error encryptionPtr;
               mret (Some errorMessage, keyPtr)
             else mret (None, keyPtr)
           else mret (Some "key JNI allocation OOM"%string, keyPtr)
       end
     else mret (None, 0));
  when (nonnull keyPtr) (ReleaseByteArrayElements keyPtr);;
  match errorMessage with
  | Some msg => ThrowNew msg
  | None => mret tt
  end.

(** The innermost [else] block of [encryptJni]: sizes, the four buffers,
    the engine call, the results, and the blocks given back. *)
Definition encrypt_block (encryptionPtr plaintextPtr : N) (plaintext : list byte)
    (aEncryptedMsg : N) (macFieldId ephemeralFieldId : string)
    : M (option (list byte) * option string) :=
  let plaintextLength := GetArrayLength plaintext in
  ciphertextLength ← native_olm_pk_ciphertext_length encryptionPtr plaintextLength;
  macLength ← native_olm_pk_mac_length encryptionPtr;
  let ephemeralLength := olm_pk_key_length in
  randomLength ← native_olm_pk_encrypt_random_length encryptionPtr;
  '(encryptedMsgRet, errorMessage, ciphertextPtr, macPtr, ephemeralPtr, randomBuffPtr) ←
    (ciphertextPtr ← malloc ciphertextLength;
     if nonnull ciphertextPtr then
       macPtr ← malloc (macLength + 1);
       if nonnull macPtr then
         ephemeralPtr ← malloc (ephemeralLength + 1);
         if nonnull ephemeralPtr then
           '(ok, randomBuffPtr) ← setRandomInBuffer randomLength;
           if (ok : bool) then
             write_bytes macPtr macLength [x00];;
             write_bytes ephemeralPtr ephemeralLength [x00];;
             returnValue ← native_olm_pk_encrypt encryptionPtr
                             plaintextPtr plaintextLength
                             ciphertextPtr ciphertextLength
                             macPtr macLength
                             ephemeralPtr ephemeralLength
                             randomBuffPtr randomLength;
             if returnValue =? olm_error then
               errorMessage ← native_olm_pk_encryption_last_error encryptionPtr;
               mret (None, Some errorMessage,
                     ciphertextPtr, macPtr, ephemeralPtr, randomBuffPtr)
             else
               encryptedMsgRet ← NewByteArray ciphertextLength;
               encryptedMsgRet ← SetByteArrayRegion encryptedMsgRet 0
                                   ciphertextLength ciphertextPtr;
               macStr ← NewStringUTF macPtr;
               SetObjectField aEncryptedMsg macFieldId macStr;;
               ephemeralStr ← NewStringUTF ephemeralPtr;
               SetObjectField aEncryptedMsg ephemeralFieldId ephemeralStr;;
               mret (Some encryptedMsgRet, None,
                     ciphertextPtr, macPtr, ephemeralPtr, randomBuffPtr)
           else mret (None, Some "random buffer init"%string,
                      ciphertextPtr, macPtr, ephemeralPtr, randomBuffPtr)
         else mret (None, Some "ephemeral JNI allocation OOM"%string,
                    ciphertextPtr, macPtr, ephemeralPtr, 0)
       else mret (None, Some "MAC JNI allocation OOM"%string,
                  ciphertextPtr, macPtr, 0, 0)
     else mret (None, Some "ciphertext JNI allocation OOM"%string,
                ciphertextPtr, 0, 0, 0));
  when (nonnull randomBuffPtr)
    (memset randomBuffPtr x00 randomLength;; free randomBuffPtr);;
  when (nonnull ephemeralPtr) (free ephemeralPtr);;
  when (nonnull macPtr) (free macPtr);;
  when (nonnull ciphertextPtr) (free ciphertextPtr);;
  mret (encryptedMsgRet, errorMessage).

Definition encryptJni (thiz : jobject_thiz) (aPlaintextBuffer : option (list byte))
    (aEncryptedMsg : N) : M (option (list byte)) :=
  let encryptionPtr := getPkEncryptionInstanceId thiz in
  '(encryptedMsgRet, errorMessage, plaintextPtr) ←
    (if nonnull encryptionPtr then
       match aPlaintextBuffer with
       | None => mret (None, Some "invalid clear message"%string, 0)
       | Some plaintext =>
           plaintextPtr ← GetByteArrayElements plaintext;
           if nonnull plaintextPtr then
             encryptedMsgJClass ← GetObjectClass aEncryptedMsg;
             match encryptedMsgJClass with
             | None => mret (None, Some "unable to get crypted message class"%string,
                             plaintextPtr)
             | Some cls =>
                 match GetFieldID cls "mMac" with
                 | None => mret (None, Some "unable to get MAC field"%string,
                                 plaintextPtr)
                 | Some macFieldId =>
                     match GetFieldID cls "mEphemeralKey" with
                     | None =>
                         mret (None, Some "unable to get ephemeral key field"%string,
                               plaintextPtr)
                     | Some ephemeralFieldId =>
                         '(encryptedMsgRet, errorMessage) ←
                           encrypt_block encryptionPtr plaintextPtr plaintext
                             aEncryptedMsg macFieldId ephemeralFieldId;
                         mret (encryptedMsgRet, errorMessage, plaintextPtr)
                     end
                 end
             end
           else mret (None, Some "plaintext JNI allocation OOM"%string, plaintextPtr)
       end
     else mret (None, None, 0));
  when (nonnull plaintextPtr) (ReleaseByteArrayElements plaintextPtr);;
  match errorMessage with
  | Some msg => ThrowNew msg
  | None => mret tt
  end;;
  mret encryptedMsgRet.

(** ** olm_pk.cpp: the decryption bridge *)

Definition initializePkDecryptionMemory : M N :=
  let decryptionSize := olm_pk_decryption_size in
  decryptionPtr ← malloc decryptionSize;
  if nonnull decryptionPtr then native_olm_pk_decryption decryptionPtr
  else mret decryptionPtr.

Definition createNewPkDecryptionJni : M N :=
  decryptionPtr ← initializePkDecryptionMemory;
  let errorMessage :=
    if nonnull decryptionPtr then None else Some "init decryption OOM"%string in
  match errorMessage with
  | Some msg =>
      when (nonnull decryptionPtr)
        (native_olm_clear_pk_decryption decryptionPtr;; free decryptionPtr);;
      ThrowNew msg
  | None => mret tt
  end;;
  mret decryptionPtr.

Definition releasePkDecryptionJni (thiz : jobject_thiz) : M unit :=
  let decryptionPtr := getPkDecryptionInstanceId thiz in
  if nonnull decryptionPtr then
    native_olm_clear_pk_decryption decryptionPtr;;
    free decryptionPtr
  else mret tt.

Definition generateKeyJni (thiz : jobject_thiz) : M (option (list byte)) :=
  let randomLength := olm_pk_generate_key_random_length in
  let publicKeyLength := olm_pk_key_length in
  let decryptionPtr := getPkDecryptionInstanceId thiz in
  '(publicKeyRet, errorMessage, randomBuffPtr) ←
    (if nonnull decryptionPtr then
       '(ok, randomBuffPtr) ← setRandomInBuffer randomLength;
       if (ok : bool) then
         publicKeyPtr ← malloc publicKeyLength;
         if nonnull publicKeyPtr then
           r ← native_olm_pk_generate_key decryptionPtr publicKeyPtr publicKeyLength
                 randomBuffPtr randomLength;
           if r =? olm_error then
             errorMessage ← native_olm_pk_decryption_last_error decryptionPtr;
             mret (None, Some errorMessage, randomBuffPtr)
           else
             publicKeyRet ← NewByteArray publicKeyLength;
             publicKeyRet ← SetByteArrayRegion publicKeyRet 0 publicKeyLength
                              publicKeyPtr;
             mret (Some publicKeyRet, None, randomBuffPtr)
         else mret (None, Some "public key allocation OOM"%string, randomBuffPtr)
       else mret (None, Some "random buffer init"%string, randomBuffPtr)
     else mret (None, Some "invalid Decryption ptr=NULL"%string, 0));
  when (nonnull randomBuffPtr)
    (memset randomBuffPtr x00 randomLength;; free randomBuffPtr);;
  match errorMessage with
  | Some msg =>
      when (nonnull decryptionPtr)
        (native_olm_clear_pk_decryption decryptionPtr;; free decryptionPtr);;
      ThrowNew msg
  | None => mret tt
  end;;
  mret publicKeyRet.

(** The innermost [else] block of [decryptJni]. *)
Definition decrypt_block (decryptionPtr : N)
    (ciphertextJstring macJstring ephemeralKeyJstring : list byte)
    (ciphertextPtr macPtr ephemeralKeyPtr : N)
    : M (option (list byte) * option string) :=
  maxPlaintextLength ← native_olm_pk_max_plaintext_length decryptionPtr
                         (GetStringUTFLength ciphertextJstring);
  let ciphertextLength := GetStringUTFLength ciphertextJstring in
  '(decryptedMsgRet, errorMessage, plaintextPtr, tempCiphertextPtr) ←
    (plaintextPtr ← malloc maxPlaintextLength;
     if nonnull plaintextPtr then
       tempCiphertextPtr ← malloc ciphertextLength;
       if nonnull tempCiphertextPtr then
         memcpy tempCiphertextPtr ciphertextPtr ciphertextLength;;
         plaintextLength ← native_olm_pk_decrypt decryptionPtr
                             ephemeralKeyPtr (GetStringUTFLength ephemeralKeyJstring)
                             macPtr (GetStringUTFLength macJstring)
                             tempCiphertextPtr ciphertextLength
                             plaintextPtr maxPlaintextLength;
         if plaintextLength =? olm_error then
           errorMessage ← native_olm_pk_decryption_last_error decryptionPtr;
           mret (None, Some errorMessage, plaintextPtr, tempCiphertextPtr)
         else
           decryptedMsgRet ← NewByteArray plaintextLength;
           decryptedMsgRet ← SetByteArrayRegion decryptedMsgRet 0 plaintextLength
                               plaintextPtr;
           mret (Some decryptedMsgRet, None, plaintextPtr, tempCiphertextPtr)
       else mret (None, None, plaintextPtr, tempCiphertextPtr)
     else mret (None, Some "plaintext JNI allocation OOM"%string, plaintextPtr, 0));
  when (nonnull tempCiphertextPtr) (free tempCiphertextPtr);;
  when (nonnull plaintextPtr) (free plaintextPtr);;
  mret (decryptedMsgRet, errorMessage).

Definition decryptJni (thiz : jobject_thiz) (aEncryptedMsg : N)
    : M (option (list byte)) :=
  let decryptionPtr := getPkDecryptionInstanceId thiz in
  let failed (msg : string) (ciphertextPtr macPtr ephemeralKeyPtr : N)
      : M (option (list byte) * option string * N * N * N) :=
    mret (None, Some msg, ciphertextPtr, macPtr, ephemeralKeyPtr) in
  '(decryptedMsgRet, errorMessage, ciphertextPtr, macPtr, ephemeralKeyPtr) ←
    (if nonnull decryptionPtr then
     if nonnull aEncryptedMsg then
     encryptedMsgJClass ← GetObjectClass aEncryptedMsg;
     match encryptedMsgJClass with
     | None => failed "unable to get encrypted message class" 0 0 0
     | Some cls =>
     match GetFieldID cls "mCipherText" with
     | None => failed "unable to get message field" 0 0 0
     | Some ciphertextFieldId =>
     ciphertextJstring ← GetObjectField aEncryptedMsg ciphertextFieldId;
     match ciphertextJstring with
     | None => failed "no ciphertext" 0 0 0
     | Some ciphertextJstring =>
     ciphertextPtr ← GetStringUTFChars ciphertextJstring;
     if nonnull ciphertextPtr then
     (* the field is read and its characters are fetched a second time;
        the second pointer replaces the first *)
     ciphertextJstring ← GetObjectField aEncryptedMsg ciphertextFieldId;
     match ciphertextJstring with
     | None => failed "no ciphertext" ciphertextPtr 0 0
     | Some ciphertextJstring =>
     ciphertextPtr ← GetStringUTFChars ciphertextJstring;
     if nonnull ciphertextPtr then
     match GetFieldID cls "mMac" with
     | None => failed "unable to get MAC field" ciphertextPtr 0 0
     | Some macFieldId =>
     macJstring ← GetObjectField aEncryptedMsg macFieldId;
     match macJstring with
     | None => failed "no MAC" ciphertextPtr 0 0
     | Some macJstring =>
     macPtr ← GetStringUTFChars macJstring;
     if nonnull macPtr then
     match GetFieldID cls "mEphemeralKey" with
     | None => failed "unable to get ephemeral key field" ciphertextPtr macPtr 0
     | Some ephemeralKeyFieldId =>
     ephemeralKeyJstring ← GetObjectField aEncryptedMsg ephemeralKeyFieldId;
     match ephemeralKeyJstring with
     | None => failed "no ephemeral key" ciphertextPtr macPtr 0
     | Some ephemeralKeyJstring =>
     ephemeralKeyPtr ← GetStringUTFChars ephemeralKeyJstring;
     if nonnull ephemeralKeyPtr then
       '(decryptedMsgRet, errorMessage) ←
         decrypt_block decryptionPtr
           ciphertextJstring macJstring ephemeralKeyJstring
           ciphertextPtr macPtr ephemeralKeyPtr;
       mret (decryptedMsgRet, errorMessage, ciphertextPtr, macPtr, ephemeralKeyPtr)
     else failed "ephemeral key JNI allocation OOM" ciphertextPtr macPtr ephemeralKeyPtr
     end end
     else failed "ciphertext JNI allocation OOM" ciphertextPtr macPtr 0
     end end
     else failed "ciphertext JNI allocation OOM" ciphertextPtr 0 0
     end
     else failed "ciphertext JNI allocation OOM" ciphertextPtr 0 0
     end end end
     else failed "invalid encrypted message" 0 0 0
     else failed "invalid Decryption ptr=NULL" 0 0 0);
  when (nonnull ciphertextPtr) (ReleaseStringUTFChars ciphertextPtr);;
  when (nonnull macPtr) (ReleaseStringUTFChars macPtr);;
  when (nonnull ephemeralKeyPtr) (ReleaseStringUTFChars ephemeralKeyPtr);;
  match errorMessage with
  | Some msg => ThrowNew msg
  | None => mret tt
  end;;
  mret decryptedMsgRet.

End Bridge.

(** ** A stand-in engine

    Small enough to run: keys are four characters, the "cipher" writes
    the plaintext in hexadecimal, the MAC is a keyed checksum.  It follows
    libolm's conventions (sentinel return value, last-error strings, a
    decrypt that destroys its ciphertext buffer) and is only used to run
    the bridge on concrete inputs. *)
Module Toy.

Record enc := Enc { recipient : list byte; enc_error : string }.
Record dec := Dec { public : list byte; dec_error : string }.

Definition error_code : N := 18446744073709551615.
Definition key_length : N := 4.
Definition random_length : N := 2.

Definition digit (n : N) : byte :=
  default x00 (Byte.of_N (if n <? 10 then 48 + n else 87 + n)).
Definition hex (bs : list byte) : list byte :=
  b ← bs; [digit (Byte.to_N b / 16); digit (Byte.to_N b mod 16)].

Definition undigit (b : byte) : option N :=
  let n := Byte.to_N b in
  if (48 <=? n) && (n <=? 57) then Some (n - 48)
  else if (97 <=? n) && (n <=? 102) then Some (n - 87)
  else None.
Fixpoint unhex (bs : list byte) : option (list byte) :=
  match bs with
  | [] => Some []
  | hi :: lo :: rest =>
      h ← undigit hi; l ← undigit lo; b ← Byte.of_N (16 * h + l);
      cons b <$> unhex rest
  | _ => None
  end.

Definition checksum (bs : list byte) : list byte :=
  hex [default x00 (Byte.of_N (foldr (λ b acc, (Byte.to_N b + acc) mod 256) 0 bs))].

Definition set_recipient_key (s : enc) (k : list byte) : N * enc :=
  if N.of_nat (length k) <? key_length
  then (error_code, Enc (recipient s) "INPUT_BUFFER_TOO_SMALL")
  else (0, Enc (take (N.to_nat key_length) k) (enc_error s)).

Definition encrypt (s : enc) (plain : list byte) (ctlen maclen ephlen : N)
    (random : list byte) : N * list byte * list byte * list byte * enc :=
  if (ctlen <? 2 * N.of_nat (length plain)) || (maclen <? 2) || (ephlen <? key_length)
  then (error_code, [], [], [], Enc (recipient s) "OUTPUT_BUFFER_TOO_SMALL")
  else if N.of_nat (length random) <? random_length
  then (error_code, [], [], [], Enc (recipient s) "NOT_ENOUGH_RANDOM")
  else
    let eph := hex (take (N.to_nat random_length) random) in
    let ct := hex plain in
    (N.of_nat (length ct), ct, checksum (recipient s ++ eph ++ ct), eph, s).

Definition weak (random : list byte) : bool :=
  forallb (λ b, Byte.eqb b x00) random.

Definition generate_key (s : dec) (pklen : N) (random : list byte)
    : N * list byte * dec :=
  if pklen <? key_length
  then (error_code, [], Dec (public s) "OUTPUT_BUFFER_TOO_SMALL")
  else if (N.of_nat (length random) <? random_length) || weak random
  then (error_code, [], Dec (public s) "NOT_ENOUGH_RANDOM")
  else
    let pk := hex (take (N.to_nat random_length) random) in
    (0, pk, Dec pk (dec_error s)).

Definition decrypt (s : dec) (eph mac ct : list byte) (maxlen : N)
    : N * list byte * list byte * dec :=
  let wiped := replicate (length ct) x00 in
  if negb (bool_decide (Byte.to_N <$> checksum (public s ++ eph ++ ct)
                        = Byte.to_N <$> mac))
  then (error_code, ct, [], Dec (public s) "BAD_MESSAGE_MAC")
  else match unhex ct with
       | None => (error_code, wiped, [], Dec (public s) "INVALID_BASE64")
       | Some plain =>
           if maxlen <? N.of_nat (length plain)
           then (error_code, wiped, [], Dec (public s) "OUTPUT_BUFFER_TOO_SMALL")
           else (N.of_nat (length plain), wiped, plain, s)
       end.

#[global] Instance engine : Engine := {|
  enc_state := enc;
  dec_state := dec;
  olm_error := error_code;
  olm_pk_key_length := key_length;
  olm_pk_encryption_size := 8;
  olm_pk_encryption := Enc [] "SUCCESS";
  olm_clear_pk_encryption := λ _, Enc [] "SUCCESS";
  olm_pk_encryption_last_error := enc_error;
  olm_pk_encryption_set_recipient_key := set_recipient_key;
  olm_pk_ciphertext_length := λ _ n, 2 * n;
  olm_pk_mac_length := λ _, 2;
  olm_pk_encrypt_random_length := λ _, random_length;
  olm_pk_encrypt := encrypt;
  olm_pk_decryption_size := 8;
  olm_pk_decryption := Dec [] "SUCCESS";
  olm_clear_pk_decryption := λ _, Dec [] "SUCCESS";
  olm_pk_decryption_last_error := dec_error;
  olm_pk_generate_key_random_length := random_length;
  olm_pk_generate_key := generate_key;
  olm_pk_max_plaintext_length := λ _ n, n;
  olm_pk_decrypt := decrypt
|}.

Definition enc_ctx (s : enc) : payload := EncCtx (E := engine) s.
Definition dec_ctx (s : dec) : payload := DecCtx (E := engine) s.

(** An empty machine: no blocks, one blank message object at reference
    1, and [en] as the random provider's supply. *)
Definition EncryptedMsg : jobject :=
  JObject ["mCipherText"; "mMac"; "mEphemeralKey"]%string ∅.

Definition boot (sc : list (option byte)) (en : list byte) : state :=
  State ∅ {[ 1 := EncryptedMsg ]} sc en [] None.

(** The same machine with a decryption context at address 1, fresh or
    holding the key pair whose public half is [pk]. *)
Definition with_decryption (pk : list byte) (sc : list (option byte))
    (en : list byte) (msg : jobject) : state :=
  State {[ 1 := Live (dec_ctx (Dec pk "SUCCESS")) ]} {[ 1 := msg ]} sc en [] None.

(** ... and with an encryption context at address 1 whose recipient key
    is [k]. *)
Definition with_encryption (k : list byte) (sc : list (option byte))
    (en : list byte) : state :=
  State {[ 1 := Live (enc_ctx (Enc k "SUCCESS")) ]} {[ 1 := EncryptedMsg ]}
    sc en [] None.

End Toy.

(** A variant of the stand-in engine whose announced MAC length is one
    its own encrypt turns down, to run the bridge into an encrypt
    failure. *)
Definition short_mac_engine : Engine := {|
  enc_state := Toy.enc;
  dec_state := Toy.dec;
  olm_error := Toy.error_code;
  olm_pk_key_length := Toy.key_length;
  olm_pk_encryption_size := 8;
  olm_pk_encryption := Toy.Enc [] "SUCCESS";
  olm_clear_pk_encryption := λ _, Toy.Enc [] "SUCCESS";
  olm_pk_encryption_last_error := Toy.enc_error;
  olm_pk_encryption_set_recipient_key := Toy.set_recipient_key;
  olm_pk_ciphertext_length := λ _ n, 2 * n;
  olm_pk_mac_length := λ _, 1;
  olm_pk_encrypt_random_length := λ _, Toy.random_length;
  olm_pk_encrypt := Toy.encrypt;
  olm_pk_decryption_size := 8;
  olm_pk_decryption := Toy.Dec [] "SUCCESS";
  olm_clear_pk_decryption := λ _, Toy.Dec [] "SUCCESS";
  olm_pk_decryption_last_error := Toy.dec_error;
  olm_pk_generate_key_random_length := Toy.random_length;
  olm_pk_generate_key := Toy.generate_key;
  olm_pk_max_plaintext_length := λ _ n, n;
  olm_pk_decrypt := Toy.decrypt
|}.

(** * What a run leaves behind

    Vocabulary for statements about whole calls of the bridge. *)
Section Observers.
Context `{E : Engine}.

(** Every block of [h] other than [keep] is found unchanged in [s']. *)
Definition frame_except (keep : N) (h : gmap N cell) (s' : state) : Prop :=
  ∀ p c, p ≠ keep → h !! p = Some c → heap s' !! p = Some c.

(** No block that was allocated since [h] is still live in [s']. *)
Definition leaks_nothing (h : gmap N cell) (s' : state) : Prop :=
  ∀ p c, h !! p = None → heap s' !! p ≠ Some (Live c).

(** No block obtained from [malloc] since [h] is still live in [s']. *)
Definition native_blocks_released (h : gmap N cell) (s' : state) : Prop :=
  ∀ p bs, h !! p = None → heap s' !! p ≠ Some (Live (Buf Native bs)).

(** The engine's decrypt keeps to the capacity of the plaintext buffer it
    was given: it reports the error sentinel or a length within it. *)
Definition within_capacity (d : dec_state) : Prop :=
  ∀ eph mac ct maxlen,
    (olm_pk_decrypt d eph mac ct maxlen).1.1.1 = olm_error ∨
    (olm_pk_decrypt d eph mac ct maxlen).1.1.1 ≤ maxlen.

(** What every Decrypt call on a live context leaves behind: the message
    objects as they were; every block but the context as it was; each
    string view handed out during the call still holding the text of a
    field of the message, NUL-terminated; the engine's decrypt, if it was
    reached, run on a scratch copy of the ciphertext that has been freed;
    the context still live; no scratch block still live; and, when a
    result is returned, no new exception and one view of the ciphertext
    still live. *)
Definition decrypt_post (h : gmap N cell) (o : gmap N jobject) (cl : list call)
    (pe : option string) (handle ref : N)
    (ret : option (list byte)) (s' : state) : Prop :=
  objs s' = o ∧
  frame_except handle h s' ∧
  (∀ p bs, h !! p = None → heap s' !! p ≫= view_bytes = Some bs →
     ∃ fid s, (ob ← o !! ref; slots ob !! fid) = Some s ∧ bs = s ++ [x00]) ∧
  (∃ new, calls s' = new ++ cl ∧
     ∀ c, c ∈ new → call_fn c = fn_pk_decrypt →
       ∃ eph mac tmp pt ephB macB ctB r,
         call_bufs c = [eph; mac; tmp; pt] ∧ call_inputs c = [ephB; macB; ctB] ∧
         (ob ← o !! ref; slots ob !! "mCipherText"%string) = Some ctB ∧
         h !! tmp = None ∧ heap s' !! tmp = Some (Freed (Buf Native r))) ∧
  (∃ d', heap s' !! handle = Some (Live (DecCtx d'))) ∧
  native_blocks_released h s' ∧
  match ret with
  | Some _ =>
      pending s' = pe ∧
      ∃ p ct, h !! p = None ∧
              (ob ← o !! ref; slots ob !! "mCipherText"%string) = Some ct ∧
              heap s' !! p = Some (Live (Buf JniView (ct ++ [x00])))
  | None => True
  end.

(** A message object after one of its string fields has been assigned. *)
Definition SetStringField (fid : string) (v : list byte) (ob : jobject) : jobject :=
  JObject (declared ob) (<[fid := v]> (slots ob)).

(** Modelled from the spec: the managed caller of [encryptJni] is not
    among the sources.  The encrypt call is one "taking plaintext and
    returning a structured result (ciphertext bytes, MAC text,
    ephemeral-key text)", and the decrypt call is one "taking the
    structured result", with the "ciphertext-as-text at the decrypt
    boundary": the caller stores the bytes [encryptJni] returns in the
    message's [mCipherText] field, next to the two fields the native code
    has set. *)
Definition Encrypt (thiz : jobject_thiz) (plaintext : list byte) (aEncryptedMsg : N)
    : M bool :=
  ciphertext ← encryptJni thiz (Some plaintext) aEncryptedMsg;
  match ciphertext with
  | Some c => SetObjectField aEncryptedMsg "mCipherText" c;; mret true
  | None => mret false
  end.

(** Encrypt through one bridge, decrypt the message through the other. *)
Definition round_trip (enc dec : jobject_thiz) (plaintext : list byte)
    (aEncryptedMsg : N) : M (option (list byte)) :=
  Encrypt enc plaintext aEncryptedMsg;;
  decryptJni dec aEncryptedMsg.

End Observers.

(** * Reasoning about runs

    [wp fo m Q s]: running [m] from [s] ends in a result and a state that
    satisfy [Q]; a run that ends in [Fault] counts as [fo].  With
    [fo := False] this is total correctness, with [fo := True] it speaks
    about the runs that return. *)
Section Logic.
Context `{E : Engine}.

Definition wp {A} (fo : Prop) (m : M A) (Q : A → state → Prop) (s : state) : Prop :=
  match m s with
  | Done a s' => Q a s'
  | Fault _ => fo
  end.

Lemma wp_total {A} (m : M A) Q s :
  wp False m Q s → ∃ a s', m s = Done a s' ∧ Q a s'.
Proof. unfold wp. destruct (m s) as [|a s']; [done | eauto]. Qed.

Lemma wp_partial {A} (m : M A) Q s a s' :
  wp True m Q s → m s = Done a s' → Q a s'.
Proof. unfold wp. intros H Hm. by rewrite Hm in H. Qed.

Lemma fault_of_Some {A} (r : result A) w : fault_of r = Some w → r = Fault w.
Proof. destruct r; simpl; congruence. Qed.

Lemma wp_mono {A} fo (m : M A) (Q Q' : A → state → Prop) s :
  (∀ a s', Q a s' → Q' a s') → wp fo m Q s → wp fo m Q' s.
Proof. unfold wp. destruct (m s); auto. Qed.

Lemma wp_bind {A B} fo (m : M A) (k : A → M B) Q s :
  wp fo m (λ a, wp fo (k a) Q) s → wp fo (m ≫= k) Q s.
Proof. cbv [wp mbind M_bind]. by destruct (m s). Qed.

Lemma wp_ret {A} fo (a : A) Q s : Q a s → wp fo (mret a) Q s.
Proof. done. Qed.

Lemma wp_fault {A} (fo : Prop) w (Q : A → state → Prop) s : fo → wp fo (fault w) Q s.
Proof. done. Qed.

Lemma wp_modify fo f Q s : Q tt (f s) → wp fo (modify f) Q s.
Proof. done. Qed.

Lemma wp_gets {A} fo (f : state → A) Q s : Q (f s) s → wp fo (gets f) Q s.
Proof. done. Qed.

Lemma wp_load fo p Q s :
  match heap s !! p with
  | Some (Live c) => Q c s
  | _ => fo
  end → wp fo (load p) Q s.
Proof. unfold wp, load. by repeat case_match. Qed.

Lemma fresh_ptr_nonnull (h : gmap N cell) : fresh_ptr h ≠ 0.
Proof.
  unfold fresh_ptr. intros Heq.
  pose proof (is_fresh ({[0]} ∪ dom h)) as Hf. rewrite Heq in Hf. set_solver.
Qed.

Lemma fresh_ptr_fresh (h : gmap N cell) : h !! fresh_ptr h = None.
Proof.
  unfold fresh_ptr. apply not_elem_of_dom.
  pose proof (is_fresh ({[0]} ∪ dom h)). set_solver.
Qed.

Lemma wp_allocate fo o content Q s :
  (∀ out rest, next_outcome (sched s) = (out, rest) →
     match out with
     | None => Q 0 (set_sched rest s)
     | Some junk =>
         ∀ p, p ≠ 0 → heap s !! p = None →
           Q p (set_heap <[p := Live (Buf o (content junk))]> (set_sched rest s))
     end) →
  wp fo (allocate o content) Q s.
Proof.
  intros H. unfold wp, allocate.
  destruct (next_outcome (sched s)) as [[junk|] rest] eqn:Hn;
    specialize (H _ _ eq_refl); [|done].
  apply H; [apply fresh_ptr_nonnull | apply fresh_ptr_fresh].
Qed.

Lemma wp_release fo o p Q s :
  match heap s !! p with
  | Some (Live (Buf o' bs)) =>
      match o, o' with
      | Native, Native | JniView, JniView =>
          Q tt (set_heap <[p := Freed (Buf o' bs)]> s)
      | _, _ => fo
      end
  | Some (Live c) =>
      match o with
      | Native => Q tt (set_heap <[p := Freed c]> s)
      | JniView => fo
      end
  | _ => fo
  end → wp fo (release o p) Q s.
Proof.
  unfold wp, release.
  destruct (heap s !! p) as [[[o' bs| |]|]|]; try done;
    destruct o; try destruct o'; done.
Qed.

Lemma wp_if {A} fo (b : bool) (m1 m2 : M A) Q s :
  (b = true → wp fo m1 Q s) → (b = false → wp fo m2 Q s) →
  wp fo (if b then m1 else m2) Q s.
Proof. destruct b; auto. Qed.

(** How many of the coming allocations are known to succeed. *)
Definition no_oom (k : nat) (sc : list (option byte)) : Prop :=
  Forall is_Some (take k sc).

Lemma no_oom_next k sc out rest :
  no_oom (S k) sc → next_outcome sc = (out, rest) → is_Some out ∧ no_oom k rest.
Proof.
  unfold no_oom. destruct sc as [|o sc]; simpl.
  - intros _ [= <- <-]. split; [by eexists|]. by rewrite take_nil.
  - intros [? ?]%Forall_cons [= <- <-]. done.
Qed.

Global Instance no_oom_dec k sc : Decision (no_oom k sc).
Proof. unfold no_oom. apply _. Defined.

Lemma nonnull_true p : p ≠ 0 → nonnull p = true.
Proof. unfold nonnull. by intros ->%N.eqb_neq. Qed.

Lemma nonnull_inv p : nonnull p = true → p ≠ 0.
Proof. unfold nonnull. by intros ?%negb_true_iff%N.eqb_neq. Qed.

Lemma nonnull_false_inv p : nonnull p = false → p = 0.
Proof. unfold nonnull. by intros ?%negb_false_iff%N.eqb_eq. Qed.

Lemma length_splice off (new old : list byte) :
  (off + length new ≤ length old)%nat → length (splice off new old) = length old.
Proof. unfold splice. intros. rewrite !length_app, length_take, length_drop. lia. Qed.

Lemma length_clip n bs : (length (clip n bs) ≤ N.to_nat n)%nat.
Proof. unfold clip. rewrite length_take. lia. Qed.

Lemma until_nul_elem_of bs : x00 ∈ bs → until_nul bs ≠ None.
Proof.
  induction bs as [|b bs IH]; simpl; [by intros ?%elem_of_nil|].
  intros Hin. destruct (Byte.eqb b x00) eqn:Hb; [done|].
  apply elem_of_cons in Hin as [<-|Hin]; [by vm_compute in Hb|].
  specialize (IH Hin). by destruct (until_nul bs).
Qed.

Lemma until_nul_text (s rest : list byte) :
  x00 ∉ s → until_nul (s ++ x00 :: rest) = Some s.
Proof.
  induction s as [|b s IH]; simpl; [done|].
  intros [Hb Hs]%not_elem_of_cons. rewrite IH by done.
  destruct (Byte.eqb b x00) eqn:Heq; [|done].
  apply Byte.byte_dec_bl in Heq. congruence.
Qed.

Lemma GetFieldID_in cls name : name ∈ cls → GetFieldID cls name = Some name.
Proof. unfold GetFieldID. intros. by rewrite decide_True. Qed.

Lemma GetFieldID_Some cls name fid : GetFieldID cls name = Some fid → fid = name.
Proof. unfold GetFieldID. case_decide; congruence. Qed.

Lemma to_nat_GetArrayLength arr : N.to_nat (GetArrayLength arr) = length arr.
Proof. apply Nat2N.id. Qed.

Lemma to_nat_GetStringUTFLength str : N.to_nat (GetStringUTFLength str) = length str.
Proof. apply Nat2N.id. Qed.

Lemma take_all (bs : list byte) : take (length bs) bs = bs.
Proof. by apply take_ge. Qed.

Lemma splice_all (new old : list byte) :
  length new = length old → splice 0 new old = new.
Proof.
  unfold splice. intros Hl. rewrite take_0, drop_ge by (simpl; lia).
  simpl. apply app_nil_r.
Qed.

Lemma splice_prefix (new old : list byte) :
  splice 0 new old = new ++ drop (length new) old.
Proof. unfold splice. by rewrite take_0. Qed.

Lemma splice_last (n : nat) (b : byte) (old : list byte) :
  length old = S n → splice n [b] old = take n old ++ [b].
Proof.
  unfold splice. intros Hl. rewrite drop_ge by (simpl; lia). by rewrite app_nil_r.
Qed.

(** A buffer of [m + 1] bytes whose last byte was set to NUL and whose
    front was then overwritten with at most [m] bytes. *)
Lemma splice_terminated_shape (c old : list byte) m :
  length old = S m → (length c ≤ m)%nat →
  splice 0 c (splice m [x00] old) = c ++ drop (length c) (take m old) ++ [x00].
Proof.
  intros Hold Hc. rewrite splice_last by done. rewrite splice_prefix.
  rewrite drop_app_le; [done|]. rewrite length_take. lia.
Qed.

Lemma until_nul_spliced (c old : list byte) m :
  length old = S m → (length c ≤ m)%nat →
  until_nul (splice 0 c (splice m [x00] old)) ≠ None.
Proof.
  intros Hold Hc. rewrite splice_terminated_shape by done.
  apply until_nul_elem_of. set_solver.
Qed.

Lemma splice_terminated (c old : list byte) m :
  length old = S m → length c = m →
  splice 0 c (splice m [x00] old) = c ++ [x00].
Proof.
  intros Hold Hc. rewrite splice_terminated_shape by (done || lia).
  rewrite drop_ge; [done|]. rewrite length_take. lia.
Qed.


End Logic.

(** Symbolic execution: one step of [wp] at the head of the program. *)
(** A lookup that the known facts do not settle: split on whether the
    address is one of the blocks written so far, then on what the
    untouched heap holds there. *)
Ltac lookup_stuck :=
  repeat lazymatch goal with
  | |- match <[?k:=_]> _ !! ?p with _ => _ end =>
      rewrite lookup_insert; case_decide; [subst |]
  | |- match ?h !! ?p with _ => _ end =>
      let H := fresh "Hcell" in
      destruct (h !! p) as [[?|?]|] eqn:H
  end;
  lazy beta iota; try exact I.

Ltac clip_facts :=
  repeat match goal with
  | |- context [clip ?n ?b] =>
      lazymatch goal with
      | H : (length (clip n b) ≤ _)%nat |- _ => fail
      | _ => pose proof (length_clip n b)
      end
  end.

Ltac len_norm :=
  change (N.to_nat 0) with 0%nat;
  repeat first
    [ rewrite length_replicate | rewrite length_app | rewrite length_take
    | rewrite length_drop | rewrite length_splice by (len_norm; lia)
    | rewrite length_cons | rewrite length_nil ].

Ltac len_solve :=
  clip_facts; len_norm;
  cbn [fst snd] in *;
  rewrite ?to_nat_GetStringUTFLength, ?to_nat_GetArrayLength in *;
  repeat match goal with
  | H : _ ≠ _ |- _ => clear H
  | H : _ !! _ = _ |- _ => clear H
  end;
  lia.

Ltac st_norm :=
  lazy beta iota zeta delta
    [heap objs sched entropy calls pending
     set_heap set_objs set_sched set_entropy add_call set_pending
     field_of getPkEncryptionInstanceId getPkDecryptionInstanceId fst snd].

Ltac bytes_norm :=
  change (N.to_nat 0) with 0%nat;
  rewrite ?insert_insert_eq;
  rewrite ?to_nat_GetArrayLength, ?to_nat_GetStringUTFLength, ?N2Nat.inj_add;
  change (N.to_nat 1) with 1%nat;
  rewrite ?take_all, ?take_app_length;
  repeat match goal with
  | |- context [splice 0 ?new ?old] => rewrite (splice_all new old) by len_solve
  end;
  rewrite ?take_take, ?Nat.min_id.

Ltac split_fresh :=
  repeat match goal with
  | H : <[_ := _]> _ !! _ = None |- _ =>
      apply lookup_insert_None in H; destruct H
  end.

Ltac lookup_norm :=
  repeat first
    [ rewrite lookup_insert_eq
    | rewrite lookup_insert_ne by congruence
    | match goal with
      | H : ?h !! ?p = _ |- context [?h !! ?p] => rewrite H
      end ].

Ltac leb_true :=
  match goal with
  | |- context [(?a <=? ?b)%nat] =>
      let H := fresh in
      assert (H : (a <=? b)%nat = true) by (apply Nat.leb_le; len_solve);
      rewrite H; clear H
  end.

Ltac wp_alloc :=
  let out := fresh "out" in
  let rest := fresh "rest" in
  let Hn := fresh "Hn" in
  apply wp_allocate; st_norm; intros out rest Hn;
  first [ match goal with
          | Ho : no_oom (S _) _ |- _ =>
              let j := fresh "junk" in
              destruct (no_oom_next _ _ _ _ Ho Hn) as [[j ->] ?]; clear Ho
          end
        | destruct out ];
  lazy beta iota;
  try (let p := fresh "p" in
       let Hp := fresh "Hp" in
       let Hf := fresh "Hf" in
       intros p Hp Hf; split_fresh).

Ltac wp_unfold :=
  lazymatch goal with
  | |- wp _ ?m _ _ =>
      let f := head m in
      first
        [ unfold f
        | fail 1 "wp_unfold: stuck at" m ]
  end
with head m :=
  lazymatch m with
  | ?f _ => head f
  | _ => m
  end.

Ltac wp_step :=
  lazymatch goal with
  | |- wp _ (mbind _ _) _ _ => apply wp_bind
  | |- wp _ (mret _) _ _ => apply wp_ret; st_norm
  | |- wp _ (fault _) _ _ => apply wp_fault; try exact I
  | |- wp _ (modify _) _ _ => apply wp_modify; st_norm; bytes_norm
  | |- wp _ (gets _) _ _ => apply wp_gets; st_norm
  | |- wp _ (load _) _ _ => apply wp_load; st_norm; lookup_norm; lookup_stuck
  | |- wp _ (allocate _ _) _ _ => wp_alloc
  | |- wp _ (release _ _) _ _ =>
      apply wp_release; st_norm; lookup_norm; lookup_stuck; st_norm
  | |- wp _ (if nonnull 0 then _ else _) _ _ =>
      change (nonnull 0) with false; lazy beta iota
  | |- wp _ (if nonnull ?p then _ else _) _ _ =>
      first [ rewrite (nonnull_true p) by assumption
            | let Hnn := fresh "Hnn" in
              destruct (nonnull p) eqn:Hnn;
              [ apply nonnull_inv in Hnn
              | apply nonnull_false_inv in Hnn; try subst p ] ]
  | |- wp _ (if (?a <=? ?b)%nat then _ else _) _ _ =>
      first [ leb_true
            | progress bytes_norm
            | destruct (Nat.leb_spec0 a b) ]
  | |- wp _ (if (?a =? ?b)%N then _ else _) _ _ =>
      destruct (N.eqb_spec a b); try (exfalso; cbn [fst snd] in *; congruence)
  | |- wp _ (if _ then _ else _) _ _ => case_match
  | |- wp _ (match until_nul ?bs with _ => _ end) _ _ =>
      let Hs := fresh "Hs" in
      destruct (until_nul bs) eqn:Hs;
      [ | try (exfalso; revert Hs; apply until_nul_spliced; len_solve) ]
  | |- wp _ (match GetFieldID ?c ?n with _ => _ end) _ _ =>
      first [ rewrite (GetFieldID_in c n) by assumption
            | let Hg := fresh "Hg" in
              destruct (GetFieldID c n) eqn:Hg;
              [ apply GetFieldID_Some in Hg; subst | ] ]
  | |- wp _ (match ?x with _ => _ end) _ _ =>
      first [ lazymatch x with
              | context [nonnull 0] => change (nonnull 0) with false
              | context [nonnull ?p] => rewrite (nonnull_true p) by assumption
              end;
              lazy beta iota
            | progress st_norm
            | match goal with
              | H : x = _ |- _ => rewrite H
              end
            | progress
                (repeat match goal with
                        | H : ?m !! ?k = _ |- wp _ (match ?y with _ => _ end) _ _ =>
                            lazymatch y with
                            | context [m !! k] => rewrite H
                            end
                        end;
                 cbn [fmap option_fmap option_map mbind option_bind])
            | progress bytes_norm
            | case_match ]
  | |- wp _ _ _ _ => wp_unfold
  end.

Ltac wp_run := st_norm; repeat wp_step; st_norm; bytes_norm.

Ltac elem_of_list_solve :=
  solve [ repeat first [ apply list_elem_of_here | apply list_elem_of_further ] ].

(** The engine calls made during a run: the log is the old log with the
    new calls in front. *)
Ltac strip_calls l cl :=
  lazymatch l with
  | cl => constr:(@nil call)
  | ?c :: ?l' => let r := strip_calls l' cl in constr:(c :: r)
  end.

Ltac new_calls :=
  lazymatch goal with
  | |- ?l = ?new ++ ?cl =>
      let pre := strip_calls l cl in unify new pre; reflexivity
  end.

Ltac calls_solve :=
  let c := fresh "c" in
  let Hc := fresh "Hc" in
  let Hfn := fresh "Hfn" in
  intros c Hc Hfn;
  repeat (apply elem_of_cons in Hc as [-> | Hc]);
  try (apply elem_of_nil in Hc; contradiction);
  try discriminate Hfn;
  try reflexivity.

(** When the engine's result [(r, ...)] has been named in the context,
    settle a branch of the run by what is assumed about [r]. *)
Ltac by_outcome Hres := cbn [fst snd] in Hres; congruence.

(** Side conditions about the heap after a run: a cell away from the
    blocks the run has written is what it was ... *)
Ltac frame_solve :=
  let q := fresh "q" in
  let c := fresh "c" in
  let Hq := fresh "Hq" in
  let Hc := fresh "Hc" in
  intros q c Hq Hc; lookup_norm; done.

(** ... and a new cell is one of the blocks the run has allocated. *)
Ltac fresh_cell_solve fin :=
  let q := fresh "q" in
  let c := fresh "c" in
  let Hq := fresh "Hq" in
  let Hv := fresh "Hv" in
  intros q c Hq Hv;
  repeat (rewrite lookup_insert in Hv; case_decide;
          [ first [ discriminate Hv | fin Hv | subst; congruence ] | ]);
  congruence.

Ltac zeroed_solve := fresh_cell_solve ltac:(fun Hv => by injection Hv as <-).
Ltac leak_solve := fresh_cell_solve ltac:(fun Hv => fail).

(** The pointers a run has obtained are pairwise distinct ... *)
Ltac nodup_solve :=
  repeat (apply NoDup_cons; split;
          [ rewrite ?elem_of_cons, elem_of_nil; intuition congruence | ]);
  apply NoDup_nil_2.

(** ... and they are all the blocks it has allocated. *)
Ltac allocated_solve :=
  let q := fresh "q" in
  let Hq := fresh "Hq" in
  let c := fresh "c" in
  let Hv := fresh "Hv" in
  intros q Hq [c Hv];
  repeat (rewrite lookup_insert in Hv; case_decide;
          [ first [ subst; elem_of_list_solve | congruence ] | ]);
  congruence.

(** * Operations on a context that has been freed

    Nothing in the native code records that a context is gone: with the
    old handle, GenerateKey and Release go on to the freed block. *)
Section Stale.
Context `{E : Engine}.

Lemma wp_faults {A} (m : M A) s :
  wp True m (λ _ _, False) s → is_Some (fault_of (m s)).
Proof. unfold wp. destruct (m s); [by eexists | done]. Qed.

Lemma generateKeyJni_on_freed_context thiz h o sc en cl pe c :
  mNativeId thiz ≠ 0 →
  h !! mNativeId thiz = Some (Freed c) →
  wp True (generateKeyJni thiz) (λ _ _, False) (State h o sc en cl pe).
Proof. intros Hnn Hcell. unfold generateKeyJni. wp_run. Qed.

Lemma releasePkDecryptionJni_on_freed_context thiz h o sc en cl pe c :
  mNativeId thiz ≠ 0 →
  h !! mNativeId thiz = Some (Freed c) →
  wp True (releasePkDecryptionJni thiz) (λ _ _, False) (State h o sc en cl pe).
Proof. intros Hnn Hcell. unfold releasePkDecryptionJni. wp_run. Qed.

End Stale.

(** * The claims *)
Section Claims.
Context `{E : Engine}.

(** C1, amended.  GenerateKey on a valid decryption context whose random
    buffer and public-key buffer could be set up: when the engine's
    key-generation operation returns the error sentinel, the call returns
    no key, the pending exception carries the engine's last-error string
    for that context, and the context block has been cleared and then
    freed.  The handle itself is neither reset nor recorded as invalid:
    a later GenerateKey or Release with the same handle goes on to the
    freed block (undefined behaviour, not a rejection).  Once the caller
    has reset its handle to null, GenerateKey and Decrypt raise "invalid
    Decryption ptr=NULL" and Release does nothing, without touching
    native memory. *)
Theorem generateKeyJni_engine_failure_destroys_context thiz st d :
  let random := take (N.to_nat olm_pk_generate_key_random_length) (entropy st) in
  let outcome := olm_pk_generate_key d olm_pk_key_length random in
  mNativeId thiz ≠ 0 →
  heap st !! mNativeId thiz = Some (Live (DecCtx d)) →
  no_oom 2 (sched st) →
  (N.to_nat olm_pk_generate_key_random_length ≤ length (entropy st))%nat →
  outcome.1.1 = olm_error →
  ∃ st',
    generateKeyJni thiz st = Done None st' ∧
    pending st' = Some (olm_pk_decryption_last_error outcome.2) ∧
    heap st' !! mNativeId thiz
      = Some (Freed (DecCtx (olm_clear_pk_decryption outcome.2))) ∧
    Call fn_pk_decryption_last_error (mNativeId thiz) [] [] ∈ calls st' ∧
    is_Some (fault_of (generateKeyJni thiz st')) ∧
    is_Some (fault_of (releasePkDecryptionJni thiz st')) ∧
    generateKeyJni (Thiz 0) st'
      = Done None (set_pending "invalid Decryption ptr=NULL" st') ∧
    (∀ aEncryptedMsg,
       decryptJni (Thiz 0) aEncryptedMsg st'
         = Done None (set_pending "invalid Decryption ptr=NULL" st')) ∧
    releasePkDecryptionJni (Thiz 0) st' = Done tt st'.
Proof.
  intros random outcome Hnn Hctx Hoom Hen Hfail.
  destruct st as [h o sc en cl pe]; cbn [heap sched entropy] in *.
  subst random.
  cut (wp False (generateKeyJni thiz) (λ ret st',
         ret = None ∧
         pending st' = Some (olm_pk_decryption_last_error outcome.2) ∧
         heap st' !! mNativeId thiz
           = Some (Freed (DecCtx (olm_clear_pk_decryption outcome.2))) ∧
         Call fn_pk_decryption_last_error (mNativeId thiz) [] [] ∈ calls st')
         (State h o sc en cl pe)).
  { intros (ret & st' & Hrun & -> & Hpe & Hcell & Hcall)%wp_total.
    exists st'. split_and!; try done.
    - destruct st'. eapply wp_faults, generateKeyJni_on_freed_context; done.
    - destruct st'. eapply wp_faults, releasePkDecryptionJni_on_freed_context; done. }
  unfold generateKeyJni. wp_run; subst outcome.
  - split_and!; [done | done | by lookup_norm | elem_of_list_solve].
  - by_outcome Hfail.
Qed.

(** C10.  A GenerateKey call that gets as far as allocating the
    public-key buffer never gives that buffer back: whether the engine
    succeeds or fails, the block handed to the engine as the key output
    is still live when the call returns, and has the public-key length. *)
Theorem generateKeyJni_keeps_public_key_block thiz st d :
  mNativeId thiz ≠ 0 →
  heap st !! mNativeId thiz = Some (Live (DecCtx d)) →
  no_oom 2 (sched st) →
  (N.to_nat olm_pk_generate_key_random_length ≤ length (entropy st))%nat →
  ∃ ret st' publicKeyPtr randomBuffPtr random bs,
    generateKeyJni thiz st = Done ret st' ∧
    publicKeyPtr ≠ 0 ∧ heap st !! publicKeyPtr = None ∧
    Call fn_pk_generate_key (mNativeId thiz) [publicKeyPtr; randomBuffPtr] [random]
      ∈ calls st' ∧
    heap st' !! publicKeyPtr = Some (Live (Buf Native bs)) ∧
    length bs = N.to_nat olm_pk_key_length ∧
    (ret = Some bs ∨ (ret = None ∧ is_Some (pending st'))).
Proof.
  destruct st as [h o sc en cl pe]; cbn [heap sched entropy].
  intros Hnn Hctx Hoom Hen.
  cut (wp False (generateKeyJni thiz) (λ ret st',
         ∃ publicKeyPtr randomBuffPtr random bs,
           publicKeyPtr ≠ 0 ∧ h !! publicKeyPtr = None ∧
           Call fn_pk_generate_key (mNativeId thiz)
             [publicKeyPtr; randomBuffPtr] [random] ∈ calls st' ∧
           heap st' !! publicKeyPtr = Some (Live (Buf Native bs)) ∧
           length bs = N.to_nat olm_pk_key_length ∧
           (ret = Some bs ∨ (ret = None ∧ is_Some (pending st'))))
         (State h o sc en cl pe)).
  { intros (ret & st' & Hrun & pk & rb & rnd & bs & ?)%wp_total.
    by exists ret, st', pk, rb, rnd, bs. }
  unfold generateKeyJni. wp_run.
  - eexists p0, p, _, _.
    split_and!; [done | done | elem_of_list_solve | by lookup_norm
                | len_solve | right; eauto].
  - eexists p0, p, _, _.
    split_and!; [done | done | elem_of_list_solve | by lookup_norm
                | len_solve | left].
    f_equal. apply take_ge. len_solve.
Qed.

(** C3 (what the code does).  With a null handle [encryptJni] returns
    null and leaves the machine exactly as it was: nothing is thrown, so
    the caller sees no error, only a null result.  (The decryption
    entry points do raise "invalid Decryption ptr=NULL" here.) *)
Theorem encryptJni_null_handle_is_silent aPlaintextBuffer aEncryptedMsg st :
  encryptJni (Thiz 0) aPlaintextBuffer aEncryptedMsg st = Done None st.
Proof. reflexivity. Qed.



(** C4.  An Encrypt call that gets as far as allocating the random
    buffer (valid context, plaintext view obtained, message object with
    its two text fields, the four allocations succeed): whatever happens
    next (the random provider fails, the engine fails, or all goes
    well), when the call returns the random buffer is freed and what it
    leaves behind is zero over its whole length, and the ciphertext, MAC
    and ephemeral-key buffers are freed.  These are the very buffers the
    engine was given, if it was called; they are four different blocks
    of the sizes the code asked for, different from the view of the
    plaintext, which has been released; together with that view they are
    all the blocks the call has allocated, and none of them is still
    live. *)
Theorem encryptJni_gives_back_buffers thiz plain aEncryptedMsg st e msg :
  mNativeId thiz ≠ 0 →
  heap st !! mNativeId thiz = Some (Live (EncCtx e)) →
  aEncryptedMsg ≠ 0 →
  objs st !! aEncryptedMsg = Some msg →
  "mMac"%string ∈ declared msg →
  "mEphemeralKey"%string ∈ declared msg →
  no_oom 5 (sched st) →
  ∃ ret st' plaintextPtr ciphertextPtr macPtr ephemeralPtr randomBuffPtr r1 r2 r3 new,
    encryptJni thiz (Some plain) aEncryptedMsg st = Done ret st' ∧
    heap st !! ciphertextPtr = None ∧ heap st !! macPtr = None ∧
    heap st !! ephemeralPtr = None ∧ heap st !! randomBuffPtr = None ∧
    heap st' !! randomBuffPtr
      = Some (Freed (Buf Native
                       (replicate (N.to_nat (olm_pk_encrypt_random_length e)) x00))) ∧
    heap st' !! ciphertextPtr = Some (Freed (Buf Native r1)) ∧
    heap st' !! macPtr = Some (Freed (Buf Native r2)) ∧
    heap st' !! ephemeralPtr = Some (Freed (Buf Native r3)) ∧
    calls st' = new ++ calls st ∧
    (∀ c, c ∈ new → call_fn c = fn_pk_encrypt →
          call_bufs c = [plaintextPtr; ciphertextPtr; macPtr; ephemeralPtr;
                         randomBuffPtr]) ∧
    NoDup [plaintextPtr; ciphertextPtr; macPtr; ephemeralPtr; randomBuffPtr] ∧
    heap st !! plaintextPtr = None ∧
    heap st' !! plaintextPtr = Some (Freed (Buf JniView plain)) ∧
    length r1 = N.to_nat (olm_pk_ciphertext_length e (GetArrayLength plain)) ∧
    length r2 = N.to_nat (olm_pk_mac_length e + 1) ∧
    length r3 = N.to_nat (olm_pk_key_length + 1) ∧
    (∀ p, heap st !! p = None → is_Some (heap st' !! p) →
          p ∈ [plaintextPtr; ciphertextPtr; macPtr; ephemeralPtr; randomBuffPtr]) ∧
    leaks_nothing (heap st) st'.
Proof.
  intros Hnn Hctx Hm Hobj Hmac Heph Hoom.
  destruct st as [h o sc en cl pe]; cbn [heap sched objs calls] in *.
  cut (wp False (encryptJni thiz (Some plain) aEncryptedMsg) (λ ret st',
         ∃ plaintextPtr ciphertextPtr macPtr ephemeralPtr randomBuffPtr r1 r2 r3 new,
           h !! ciphertextPtr = None ∧ h !! macPtr = None ∧
           h !! ephemeralPtr = None ∧ h !! randomBuffPtr = None ∧
           heap st' !! randomBuffPtr
             = Some (Freed (Buf Native
                   (replicate (N.to_nat (olm_pk_encrypt_random_length e)) x00))) ∧
           heap st' !! ciphertextPtr = Some (Freed (Buf Native r1)) ∧
           heap st' !! macPtr = Some (Freed (Buf Native r2)) ∧
           heap st' !! ephemeralPtr = Some (Freed (Buf Native r3)) ∧
           calls st' = new ++ cl ∧
           (∀ c, c ∈ new → call_fn c = fn_pk_encrypt →
                 call_bufs c = [plaintextPtr; ciphertextPtr; macPtr; ephemeralPtr;
                                randomBuffPtr]) ∧
           NoDup [plaintextPtr; ciphertextPtr; macPtr; ephemeralPtr; randomBuffPtr] ∧
           h !! plaintextPtr = None ∧
           heap st' !! plaintextPtr = Some (Freed (Buf JniView plain)) ∧
           length r1 = N.to_nat (olm_pk_ciphertext_length e (GetArrayLength plain)) ∧
           length r2 = N.to_nat (olm_pk_mac_length e + 1) ∧
           length r3 = N.to_nat (olm_pk_key_length + 1) ∧
           (∀ p, h !! p = None → is_Some (heap st' !! p) →
                 p ∈ [plaintextPtr; ciphertextPtr; macPtr; ephemeralPtr;
                      randomBuffPtr]) ∧
           leaks_nothing h st')
         (State h o sc en cl pe)).
  { intros (ret & st' & Hrun & pt & ct & mac & eph & rb & r1 & r2 & r3 & new & ?)%wp_total.
    by exists ret, st', pt, ct, mac, eph, rb, r1, r2, r3, new. }
  unfold encryptJni, encrypt_block. wp_run.
  all: eexists p, p0, p1, p2, p3, _, _, _, _.
  all: unfold leaks_nothing; st_norm.
  all: split_and!.
  all: first [ done | by lookup_norm | solve [new_calls] | solve [calls_solve]
             | solve [nodup_solve] | solve [allocated_solve] | solve [leak_solve]
             | solve [len_solve] ].
Qed.

(** C8.  A Decrypt call that succeeds returns exactly as many bytes as
    the engine's decrypt operation reported: with [n] the engine's
    return value (not the error sentinel, and within the capacity it was
    given), the result is the first [n] bytes of the plaintext buffer,
    whatever the allocated maximum; the rest of the buffer is not part of
    the result. *)
Theorem decryptJni_returns_reported_length thiz aEncryptedMsg st d msg ct mac eph :
  let maxlen := olm_pk_max_plaintext_length d (GetStringUTFLength ct) in
  let outcome := olm_pk_decrypt d eph mac ct maxlen in
  let n := outcome.1.1.1 in
  mNativeId thiz ≠ 0 →
  heap st !! mNativeId thiz = Some (Live (DecCtx d)) →
  aEncryptedMsg ≠ 0 →
  objs st !! aEncryptedMsg = Some msg →
  "mCipherText"%string ∈ declared msg →
  "mMac"%string ∈ declared msg →
  "mEphemeralKey"%string ∈ declared msg →
  slots msg !! "mCipherText"%string = Some ct →
  slots msg !! "mMac"%string = Some mac →
  slots msg !! "mEphemeralKey"%string = Some eph →
  no_oom 6 (sched st) →
  n ≠ olm_error →
  n ≤ maxlen →
  ∃ plaintext st' junk,
    let buffer := splice 0 (clip maxlen outcome.1.2)
                    (replicate (N.to_nat maxlen) junk) in
    decryptJni thiz aEncryptedMsg st = Done (Some plaintext) st' ∧
    pending st' = pending st ∧
    length plaintext = N.to_nat n ∧
    plaintext = take (N.to_nat n) buffer ∧
    length buffer = N.to_nat maxlen.
Proof.
  intros maxlen outcome n Hnn Hctx Hm Hobj Hc1 Hc2 Hc3 Hs1 Hs2 Hs3 Hoom Hok Hle.
  destruct st as [h o sc en cl pe]; cbn [heap sched objs calls pending] in *.
  cut (wp False (decryptJni thiz aEncryptedMsg) (λ ret st',
         ∃ plaintext junk,
           ret = Some plaintext ∧ pending st' = pe ∧
           length plaintext = N.to_nat n ∧
           plaintext = take (N.to_nat n)
                         (splice 0 (clip maxlen outcome.1.2)
                            (replicate (N.to_nat maxlen) junk)) ∧
           length (splice 0 (clip maxlen outcome.1.2)
                     (replicate (N.to_nat maxlen) junk)) = N.to_nat maxlen)
         (State h o sc en cl pe)).
  { intros (ret & st' & Hrun & pt & junk & -> & ?)%wp_total.
    by exists pt, st', junk. }
  subst n outcome maxlen.
  unfold decryptJni, decrypt_block. wp_run.
  eexists _, _. cbn [fst snd].
  split_and!; [reflexivity | done | len_solve | reflexivity | len_solve].
Qed.

End Claims.

(** * The claims at concrete inputs, on the stand-in engine *)

(** C1, as stated, fails: after a GenerateKey that the engine turned
    down, the context is not out of reach of later operations.  The same
    handle is taken as it is by a second GenerateKey and by Release, and
    both run the engine on the block that was freed. *)
Lemma generateKeyJni_failure_leaves_a_stale_handle :
  ∃ st',
    generateKeyJni (Thiz 1) (Toy.with_decryption [] [] [x00; x00] Toy.EncryptedMsg)
      = Done None st' ∧
    freed_at 1 st' = true ∧
    generateKeyJni (Thiz 1) st' = Fault "use after free" ∧
    releasePkDecryptionJni (Thiz 1) st' = Fault "use after free".
Proof.
  edestruct (wp_total (generateKeyJni (Thiz 1))
               (λ ret st',
                  ret = None ∧ freed_at 1 st' = true ∧
                  fault_of (generateKeyJni (Thiz 1) st')
                    = Some "use after free"%string ∧
                  fault_of (releasePkDecryptionJni (Thiz 1) st')
                    = Some "use after free"%string))
    as (ret & st' & Hrun & -> & Hfreed & Hgen%fault_of_Some & Hrel%fault_of_Some);
    [| by exists st'].
  by vm_compute.
Qed.

Lemma generateKeyJni_engine_failure_destroys_context_witness :
  ∃ st',
    generateKeyJni (Thiz 1) (Toy.with_decryption [] [] [x00; x00] Toy.EncryptedMsg)
      = Done None st' ∧
    pending st' = Some "NOT_ENOUGH_RANDOM"%string ∧
    heap st' !! 1 = Some (Freed (Toy.dec_ctx (Toy.Dec [] "SUCCESS"))) ∧
    Call fn_pk_decryption_last_error 1 [] [] ∈ calls st' ∧
    is_Some (fault_of (generateKeyJni (Thiz 1) st')) ∧
    is_Some (fault_of (releasePkDecryptionJni (Thiz 1) st')) ∧
    generateKeyJni (Thiz 0) st'
      = Done None (set_pending "invalid Decryption ptr=NULL" st') ∧
    (∀ aEncryptedMsg,
       decryptJni (Thiz 0) aEncryptedMsg st'
         = Done None (set_pending "invalid Decryption ptr=NULL" st')) ∧
    releasePkDecryptionJni (Thiz 0) st' = Done tt st'.
Proof.
  apply (generateKeyJni_engine_failure_destroys_context (E := Toy.engine)
           (Thiz 1) (Toy.with_decryption [] [] [x00; x00] Toy.EncryptedMsg)
           (Toy.Dec [] "SUCCESS")).
  - done.
  - reflexivity.
  - by vm_compute.
  - vm_compute. lia.
  - reflexivity.
Defined.

Lemma generateKeyJni_keeps_public_key_block_witness :
  ∃ ret st' publicKeyPtr randomBuffPtr random bs,
    generateKeyJni (Thiz 1) (Toy.with_decryption [] [] [x68; x65] Toy.EncryptedMsg)
      = Done ret st' ∧
    publicKeyPtr ≠ 0 ∧
    heap (Toy.with_decryption [] [] [x68; x65] Toy.EncryptedMsg) !! publicKeyPtr = None ∧
    Call fn_pk_generate_key 1 [publicKeyPtr; randomBuffPtr] [random] ∈ calls st' ∧
    heap st' !! publicKeyPtr = Some (Live (Buf Native bs)) ∧
    length bs = N.to_nat Toy.key_length ∧
    (ret = Some bs ∨ (ret = None ∧ is_Some (pending st'))).
Proof.
  apply (generateKeyJni_keeps_public_key_block (E := Toy.engine)
           (Thiz 1) (Toy.with_decryption [] [] [x68; x65] Toy.EncryptedMsg)
           (Toy.Dec [] "SUCCESS")).
  - done.
  - reflexivity.
  - by vm_compute.
  - vm_compute. lia.
Defined.

(** C2 (what the code does).  Decrypt on a sound context and a complete
    message, where the four string views and the plaintext buffer are
    obtained and the allocation of the scratch ciphertext fails: the call
    returns null and no exception is pending. *)
Lemma decryptJni_scratch_oom_is_silent :
  ∃ st',
    decryptJni (Thiz 1) 1
      (Toy.with_decryption [x36; x38; x36; x35]
         [Some x00; Some x00; Some x00; Some x00; Some x00; None] []
         (JObject (declared Toy.EncryptedMsg)
            (list_to_map [("mCipherText"%string, [x36; x38]);
                          ("mMac"%string, [x62; x32]);
                          ("mEphemeralKey"%string, [x36; x63; x36; x63])])))
      = Done None st' ∧
    pending st' = None.
Proof.
  edestruct (wp_total (decryptJni (Thiz 1) 1)
               (λ ret st', ret = None ∧ pending st' = None))
    as (ret & st' & Hrun & -> & Hp); [| by exists st'].
  by vm_compute.
Qed.





Lemma encryptJni_gives_back_buffers_witness :
  let st := Toy.with_encryption [x36; x38; x36; x35] [] [x6c; x6c] in
  let plain := [x68; x65; x6c; x6c; x6f] in
  ∃ ret st' plaintextPtr ciphertextPtr macPtr ephemeralPtr randomBuffPtr r1 r2 r3 new,
    encryptJni (Thiz 1) (Some plain) 1 st = Done ret st' ∧
    heap st !! ciphertextPtr = None ∧ heap st !! macPtr = None ∧
    heap st !! ephemeralPtr = None ∧ heap st !! randomBuffPtr = None ∧
    heap st' !! randomBuffPtr
      = Some (Freed (Buf Native (replicate (N.to_nat Toy.random_length) x00))) ∧
    heap st' !! ciphertextPtr = Some (Freed (Buf Native r1)) ∧
    heap st' !! macPtr = Some (Freed (Buf Native r2)) ∧
    heap st' !! ephemeralPtr = Some (Freed (Buf Native r3)) ∧
    calls st' = new ++ calls st ∧
    (∀ c, c ∈ new → call_fn c = fn_pk_encrypt →
          call_bufs c = [plaintextPtr; ciphertextPtr; macPtr; ephemeralPtr;
                         randomBuffPtr]) ∧
    NoDup [plaintextPtr; ciphertextPtr; macPtr; ephemeralPtr; randomBuffPtr] ∧
    heap st !! plaintextPtr = None ∧
    heap st' !! plaintextPtr = Some (Freed (Buf JniView plain)) ∧
    length r1 = N.to_nat (2 * GetArrayLength plain) ∧
    length r2 = N.to_nat (2 + 1) ∧
    length r3 = N.to_nat (Toy.key_length + 1) ∧
    (∀ p, heap st !! p = None → is_Some (heap st' !! p) →
          p ∈ [plaintextPtr; ciphertextPtr; macPtr; ephemeralPtr; randomBuffPtr]) ∧
    leaks_nothing (heap st) st'.
Proof.
  intros st plain.
  apply (encryptJni_gives_back_buffers (E := Toy.engine)
           (Thiz 1) plain 1 st
           (Toy.Enc [x36; x38; x36; x35] "SUCCESS") Toy.EncryptedMsg).
  - done.
  - reflexivity.
  - done.
  - reflexivity.
  - elem_of_list_solve.
  - elem_of_list_solve.
  - by vm_compute.
Defined.

(** * Whole calls of the bridge

    One symbolic run per entry point, with everything the later theorems
    need in its postcondition. *)

Ltac views_solve :=
  let q := fresh "q" in
  let bs := fresh "bs" in
  let Hq := fresh "Hq" in
  let Hv := fresh "Hv" in
  intros q bs Hq Hv;
  repeat (rewrite lookup_insert in Hv; case_decide;
          [ subst; cbn in Hv; try discriminate Hv;
            injection Hv as <-;
            match goal with
            | H : _ = Some ?s |- _ => eexists _, s; split; [exact H | reflexivity]
            end
          | ]);
  rewrite Hq in Hv; discriminate Hv.

Ltac decrypt_calls_solve :=
  let c := fresh "c" in
  let Hc := fresh "Hc" in
  let Hfn := fresh "Hfn" in
  intros c Hc Hfn;
  repeat (apply elem_of_cons in Hc as [-> | Hc]);
  try (apply elem_of_nil in Hc; contradiction);
  try discriminate Hfn;
  try (eexists _, _, _, _, _, _, _, _;
       split_and!;
       [reflexivity | reflexivity | eassumption | assumption | by lookup_norm]).

(** An allocation whose outcome the schedule lists. *)
Ltac wp_alloc_listed :=
  lazymatch goal with
  | |- wp _ (allocate _ _) _ _ =>
      let out := fresh "out" in
      let rest := fresh "rest" in
      let Hn := fresh "Hn" in
      apply wp_allocate; st_norm; intros out rest Hn;
      cbn [next_outcome] in Hn; injection Hn as <- <-;
      lazy beta iota;
      try (let p := fresh "p" in
           let Hp := fresh "Hp" in
           let Hf := fresh "Hf" in
           intros p Hp Hf; split_fresh)
  end.

Section Runs.
Context `{E : Engine}.

Lemma clip_ge n (bs : list byte) : (length bs ≤ N.to_nat n)%nat → clip n bs = bs.
Proof. unfold clip. apply take_ge. Qed.

Lemma alter_known {A} (f : A → A) (m : gmap N A) i x :
  m !! i = Some x → alter f i m = <[i := f x]> m.
Proof.
  intros Hx. apply map_eq. intros j. destruct (decide (i = j)) as [<-|Hne].
  - by rewrite lookup_alter_eq, lookup_insert_eq, Hx.
  - by rewrite lookup_alter_ne, lookup_insert_ne.
Qed.

Lemma take_splice_clip n max (ptB old : list byte) :
  (n ≤ N.to_nat max)%nat → (n ≤ length ptB)%nat →
  take n (splice 0 (clip max ptB) old) = take n ptB.
Proof.
  intros Hmax Hlen. rewrite splice_prefix. unfold clip.
  rewrite take_app_le by (rewrite length_take; lia).
  rewrite take_take. f_equal. lia.
Qed.

Lemma bind_fault {A B} (m : M A) (k : A → M B) s w :
  m s = Fault w → (m ≫= k) s = Fault w.
Proof. unfold mbind, M_bind. by intros ->. Qed.

Lemma bind_done {A B} (m : M A) (k : A → M B) s a s' :
  m s = Done a s' → (m ≫= k) s = k a s'.
Proof. unfold mbind, M_bind. by intros ->. Qed.

Lemma createNewPkEncryptionJni_run h o sc en cl pe :
  wp False createNewPkEncryptionJni
    (λ p st',
       objs st' = o ∧
       ((p = 0 ∧ heap st' = h ∧ calls st' = cl ∧
         pending st' = Some "init encryption OOM"%string) ∨
        (p ≠ 0 ∧ h !! p = None ∧
         heap st' = <[p := Live (EncCtx olm_pk_encryption)]> h ∧
         calls st' = Call fn_pk_encryption p [] [] :: cl ∧
         pending st' = pe)))
    (State h o sc en cl pe).
Proof.
  unfold createNewPkEncryptionJni, initializePkEncryptionMemory. wp_run.
  all: split; [done |]; first [by left | by right].
Qed.

Lemma createNewPkDecryptionJni_run h o sc en cl pe :
  wp False createNewPkDecryptionJni
    (λ p st',
       objs st' = o ∧
       ((p = 0 ∧ heap st' = h ∧ calls st' = cl ∧
         pending st' = Some "init decryption OOM"%string) ∨
        (p ≠ 0 ∧ h !! p = None ∧
         heap st' = <[p := Live (DecCtx olm_pk_decryption)]> h ∧
         calls st' = Call fn_pk_decryption p [] [] :: cl ∧
         pending st' = pe)))
    (State h o sc en cl pe).
Proof.
  unfold createNewPkDecryptionJni, initializePkDecryptionMemory. wp_run.
  all: split; [done |]; first [by left | by right].
Qed.

Lemma createNewPkEncryptionJni_ok_run h o sc en cl pe :
  no_oom 1 sc →
  wp False createNewPkEncryptionJni
    (λ p st',
       p ≠ 0 ∧ h !! p = None ∧
       heap st' = <[p := Live (EncCtx olm_pk_encryption)]> h ∧
       objs st' = o ∧ pending st' = pe)
    (State h o sc en cl pe).
Proof.
  intros Hoom. unfold createNewPkEncryptionJni, initializePkEncryptionMemory.
  wp_run. done.
Qed.

Lemma createNewPkDecryptionJni_ok_run h o sc en cl pe :
  no_oom 1 sc →
  wp False createNewPkDecryptionJni
    (λ p st',
       p ≠ 0 ∧ h !! p = None ∧
       heap st' = <[p := Live (DecCtx olm_pk_decryption)]> h ∧
       objs st' = o ∧ pending st' = pe)
    (State h o sc en cl pe).
Proof.
  intros Hoom. unfold createNewPkDecryptionJni, initializePkDecryptionMemory.
  wp_run. done.
Qed.

Lemma releasePkEncryptionJni_run thiz h o sc en cl pe e :
  mNativeId thiz ≠ 0 →
  h !! mNativeId thiz = Some (Live (EncCtx e)) →
  wp False (releasePkEncryptionJni thiz)
    (λ _ st',
       heap st' = <[mNativeId thiz := Freed (EncCtx (olm_clear_pk_encryption e))]> h ∧
       objs st' = o ∧ pending st' = pe)
    (State h o sc en cl pe).
Proof. intros Hnn Hctx. unfold releasePkEncryptionJni. wp_run. done. Qed.

Lemma releasePkDecryptionJni_run thiz h o sc en cl pe d :
  mNativeId thiz ≠ 0 →
  h !! mNativeId thiz = Some (Live (DecCtx d)) →
  wp False (releasePkDecryptionJni thiz)
    (λ _ st',
       heap st' = <[mNativeId thiz := Freed (DecCtx (olm_clear_pk_decryption d))]> h ∧
       objs st' = o ∧ pending st' = pe)
    (State h o sc en cl pe).
Proof. intros Hnn Hctx. unfold releasePkDecryptionJni. wp_run. done. Qed.

Lemma setRecipientKeyJni_run thiz aKeyBuffer h o sc en cl pe e :
  mNativeId thiz ≠ 0 →
  h !! mNativeId thiz = Some (Live (EncCtx e)) →
  wp False (setRecipientKeyJni thiz aKeyBuffer)
    (λ _ s',
       (∃ e', heap s' !! mNativeId thiz = Some (Live (EncCtx e'))) ∧
       frame_except (mNativeId thiz) h s' ∧
       leaks_nothing h s' ∧
       objs s' = o ∧
       (pending s' = pe ∨
        pending s' = Some "invalid key"%string ∨
        (pending s' = Some "key JNI allocation OOM"%string ∧
         heap s' = h ∧ calls s' = cl) ∨
        ∃ e', heap s' !! mNativeId thiz = Some (Live (EncCtx e')) ∧
              pending s' = Some (olm_pk_encryption_last_error e')))
    (State h o sc en cl pe).
Proof.
  intros Hnn Hctx. unfold setRecipientKeyJni. wp_run.
  all: unfold frame_except, leaks_nothing; st_norm.
  all: split_and!; try frame_solve; try leak_solve; try done;
    try (by eexists; lookup_norm).
  all: try (by left).
  all: try (by right; left).
  all: try (by right; right; left).
  all: try (by right; right; right; eexists; split; [lookup_norm|]).
Qed.

Lemma setRecipientKeyJni_accepted_run thiz key h o sc en cl pe e :
  mNativeId thiz ≠ 0 →
  h !! mNativeId thiz = Some (Live (EncCtx e)) →
  no_oom 1 sc →
  (olm_pk_encryption_set_recipient_key e key).1 ≠ olm_error →
  wp False (setRecipientKeyJni thiz (Some key))
    (λ _ s',
       pending s' = pe ∧
       heap s' !! mNativeId thiz
         = Some (Live (EncCtx (olm_pk_encryption_set_recipient_key e key).2)) ∧
       ∃ keyPtr,
         calls s' = [Call fn_pk_encryption_set_recipient_key (mNativeId thiz)
                       [keyPtr] [key]] ++ cl)
    (State h o sc en cl pe).
Proof.
  intros Hnn Hctx Hoom Hok. unfold setRecipientKeyJni. wp_run.
  split_and!; [done | by lookup_norm | by eexists].
Qed.


Lemma encryptJni_success_run thiz plain aEncryptedMsg st e msg k :
  let ctlen := olm_pk_ciphertext_length e (GetArrayLength plain) in
  let maclen := olm_pk_mac_length e in
  let rlen := olm_pk_encrypt_random_length e in
  let random := take (N.to_nat rlen) (entropy st) in
  let sealed := olm_pk_encrypt e plain ctlen maclen olm_pk_key_length random in
  let ct := sealed.1.1.1.2 in
  let mac := sealed.1.1.2 in
  let eph := sealed.1.2 in
  mNativeId thiz ≠ 0 →
  heap st !! mNativeId thiz = Some (Live (EncCtx e)) →
  aEncryptedMsg ≠ 0 →
  objs st !! aEncryptedMsg = Some msg →
  "mMac"%string ∈ declared msg →
  "mEphemeralKey"%string ∈ declared msg →
  no_oom (5 + k) (sched st) →
  (N.to_nat rlen ≤ length (entropy st))%nat →
  sealed.1.1.1.1 ≠ olm_error →
  length ct = N.to_nat ctlen →
  length mac = N.to_nat maclen →
  length eph = N.to_nat olm_pk_key_length →
  x00 ∉ mac →
  x00 ∉ eph →
  wp False (encryptJni thiz (Some plain) aEncryptedMsg)
    (λ ret st',
       ret = Some ct ∧
       objs st' = <[aEncryptedMsg :=
                     SetStringField "mEphemeralKey" eph
                       (SetStringField "mMac" mac msg)]> (objs st) ∧
       pending st' = pending st ∧
       heap st' !! mNativeId thiz = Some (Live (EncCtx sealed.2)) ∧
       frame_except (mNativeId thiz) (heap st) st' ∧
       entropy st' = drop (N.to_nat rlen) (entropy st) ∧
       no_oom k (sched st'))
    st.
Proof.
  intros ctlen maclen rlen random sealed ct mac eph.
  intros Hnn Hctx Hm Hobj Hf2 Hf3 Hoom Hen.
  subst eph mac ct.
  destruct sealed as [[[[r ctB] macB] ephB] e'] eqn:Hseal. cbn [fst snd].
  intros Hr Hlc Hlm Hle Hzm Hze.
  subst sealed random rlen maclen ctlen.
  destruct st as [h o sc en cl pe]; cbn [heap sched objs calls pending entropy] in *.
  simpl in Hoom.
  unfold encryptJni, encrypt_block.
  wp_run.
  rewrite !clip_ge in * by (clear -Hlc Hlm Hle; lia).
  rewrite (splice_terminated macB _ (N.to_nat (olm_pk_mac_length e))) in *
    by (clear -Hlm; len_norm; lia).
  rewrite (splice_terminated ephB _ (N.to_nat olm_pk_key_length)) in *
    by (clear -Hle; len_norm; lia).
  rewrite until_nul_text in Hs, Hs0 by done.
  injection Hs as <-. injection Hs0 as <-.
  bytes_norm.
  split_and!.
  - by rewrite <- Hlc, take_all.
  - rewrite (alter_known _ o aEncryptedMsg msg) by done.
    rewrite alter_insert_eq. done.
  - done.
  - by lookup_norm.
  - unfold frame_except; st_norm. frame_solve.
  - done.
  - done.
Qed.

Lemma generateKeyJni_run thiz h o sc en cl pe d :
  mNativeId thiz ≠ 0 →
  h !! mNativeId thiz = Some (Live (DecCtx d)) →
  wp False (generateKeyJni thiz)
    (λ ret s',
       match ret with
       | Some pk =>
           pending s' = pe ∧ length pk = N.to_nat olm_pk_key_length ∧
           ∃ d', heap s' !! mNativeId thiz = Some (Live (DecCtx d'))
       | None =>
           is_Some (pending s') ∧
           ∃ d', heap s' !! mNativeId thiz = Some (Freed (DecCtx d'))
       end ∧
       (∀ p bs, h !! p = None → heap s' !! p = Some (Freed (Buf Native bs)) →
                bs = replicate (N.to_nat olm_pk_generate_key_random_length) x00) ∧
       frame_except (mNativeId thiz) h s' ∧
       objs s' = o)
    (State h o sc en cl pe).
Proof.
  intros Hnn Hctx. unfold generateKeyJni. wp_run.
  all: unfold frame_except; st_norm.
  all: split_and!; try frame_solve; try zeroed_solve; try done;
    try (by eexists; lookup_norm); try len_solve.
Qed.

Lemma generateKeyJni_success_run thiz h o sc en cl pe d :
  let rlen := olm_pk_generate_key_random_length in
  let outcome := olm_pk_generate_key d olm_pk_key_length (take (N.to_nat rlen) en) in
  mNativeId thiz ≠ 0 →
  h !! mNativeId thiz = Some (Live (DecCtx d)) →
  no_oom 2 sc →
  (N.to_nat rlen ≤ length en)%nat →
  outcome.1.1 ≠ olm_error →
  length outcome.1.2 = N.to_nat olm_pk_key_length →
  wp False (generateKeyJni thiz)
    (λ ret s',
       ret = Some outcome.1.2 ∧
       pending s' = pe ∧
       heap s' !! mNativeId thiz = Some (Live (DecCtx outcome.2)) ∧
       entropy s' = drop (N.to_nat rlen) en)
    (State h o sc en cl pe).
Proof.
  intros rlen outcome Hnn Hctx Hoom Hen Hok Hlen. subst outcome rlen.
  unfold generateKeyJni. wp_run.
  cbn [fst snd] in *.
  rewrite clip_ge by (clear -Hlen; lia).
  split_and!; [ | done | by lookup_norm | done].
  f_equal. rewrite splice_all by (len_norm; clear -Hlen; lia).
  by rewrite <- Hlen, take_all.
Qed.

Lemma decryptJni_run thiz aEncryptedMsg h o sc en cl pe d :
  mNativeId thiz ≠ 0 →
  h !! mNativeId thiz = Some (Live (DecCtx d)) →
  within_capacity d →
  wp False (decryptJni thiz aEncryptedMsg)
    (decrypt_post h o cl pe (mNativeId thiz) aEncryptedMsg)
    (State h o sc en cl pe).
Proof.
  intros Hnn Hctx Hcap. unfold decryptJni, decrypt_block. wp_run.
  all: try match goal with
    | Hd : olm_pk_decrypt _ ?e ?m ?c ?mx = _, Hn : ¬ _ |- False =>
        destruct (Hcap e m c mx) as [Hc|Hc]; rewrite Hd in Hc; cbn [fst snd] in Hc;
        [congruence | apply Hn; len_solve]
    end.
  all: unfold decrypt_post, frame_except, native_blocks_released; st_norm.
  all: split; [reflexivity |]; split; [frame_solve |]; split; [views_solve |];
    split; [eexists; split; [new_calls |]; decrypt_calls_solve |];
    split; [by eexists; lookup_norm |]; split; [leak_solve |]; try done.
  split; [done |].
  match goal with
  | H : _ = Some ?s |- _ =>
      exists p, s; split_and!; [done | exact H | by lookup_norm]
  end.
Qed.

Lemma decryptJni_success_run thiz aEncryptedMsg st d msg ct mac eph k :
  let maxlen := olm_pk_max_plaintext_length d (GetStringUTFLength ct) in
  let opened := olm_pk_decrypt d eph mac ct maxlen in
  let n := opened.1.1.1 in
  mNativeId thiz ≠ 0 →
  heap st !! mNativeId thiz = Some (Live (DecCtx d)) →
  aEncryptedMsg ≠ 0 →
  objs st !! aEncryptedMsg = Some msg →
  "mCipherText"%string ∈ declared msg →
  "mMac"%string ∈ declared msg →
  "mEphemeralKey"%string ∈ declared msg →
  slots msg !! "mCipherText"%string = Some ct →
  slots msg !! "mMac"%string = Some mac →
  slots msg !! "mEphemeralKey"%string = Some eph →
  no_oom (6 + k) (sched st) →
  n ≠ olm_error →
  n ≤ maxlen →
  (N.to_nat n ≤ length opened.1.2)%nat →
  wp False (decryptJni thiz aEncryptedMsg)
    (λ ret st',
       ret = Some (take (N.to_nat n) opened.1.2) ∧
       pending st' = pending st ∧
       objs st' = objs st ∧
       heap st' !! mNativeId thiz = Some (Live (DecCtx opened.2)) ∧
       no_oom k (sched st'))
    st.
Proof.
  intros maxlen opened n Hnn Hctx Hm Hobj Hc1 Hc2 Hc3 Hs1 Hs2 Hs3 Hoom Hok Hle Hlen.
  destruct st as [h o sc en cl pe]; cbn [heap sched objs calls pending] in *.
  subst n opened maxlen. simpl in Hoom.
  unfold decryptJni, decrypt_block. wp_run.
  cbn [fst snd] in *.
  split_and!; [ | done | done | by lookup_norm | done].
  f_equal. apply take_splice_clip; [clear -Hle; lia | clear -Hlen; lia].
Qed.

End Runs.

(** * Further properties of the bridge *)
Section Extras.
Context `{E : Engine}.

(** X1.  Creating an encryption bridge never faults and has two
    outcomes.  Either the allocation failed: the handle is null, the
    exception "init encryption OOM" is pending, and native memory and the
    engine log are untouched.  Or the handle is a non-null address that
    was not a block before and now holds a live context in the engine's
    initial state, with one engine call (the initialisation) logged and
    no exception raised.  The message objects are untouched either way. *)
Theorem createNewPkEncryptionJni_outcome st :
  ∃ p st',
    createNewPkEncryptionJni st = Done p st' ∧
    objs st' = objs st ∧
    ((p = 0 ∧ heap st' = heap st ∧ calls st' = calls st ∧
      pending st' = Some "init encryption OOM"%string) ∨
     (p ≠ 0 ∧ heap st !! p = None ∧
      heap st' = <[p := Live (EncCtx olm_pk_encryption)]> (heap st) ∧
      calls st' = Call fn_pk_encryption p [] [] :: calls st ∧
      pending st' = pending st)).
Proof.
  destruct st as [h o sc en cl pe]; cbn [heap objs calls pending].
  destruct (wp_total _ _ _ (createNewPkEncryptionJni_run h o sc en cl pe))
    as (p & st' & Hrun & Hobjs & Hcases).
  by exists p, st'.
Qed.

(** X2.  Creating a decryption bridge never faults and has two
    outcomes: a null handle with the exception "init decryption OOM" and
    nothing else changed, or a non-null handle to a fresh block that
    holds a live context in the engine's initial state, with the
    initialisation logged and no exception raised. *)
Theorem createNewPkDecryptionJni_outcome st :
  ∃ p st',
    createNewPkDecryptionJni st = Done p st' ∧
    objs st' = objs st ∧
    ((p = 0 ∧ heap st' = heap st ∧ calls st' = calls st ∧
      pending st' = Some "init decryption OOM"%string) ∨
     (p ≠ 0 ∧ heap st !! p = None ∧
      heap st' = <[p := Live (DecCtx olm_pk_decryption)]> (heap st) ∧
      calls st' = Call fn_pk_decryption p [] [] :: calls st ∧
      pending st' = pending st)).
Proof.
  destruct st as [h o sc en cl pe]; cbn [heap objs calls pending].
  destruct (wp_total _ _ _ (createNewPkDecryptionJni_run h o sc en cl pe))
    as (p & st' & Hrun & Hobjs & Hcases).
  by exists p, st'.
Qed.

(** X3.  Create followed by Release, for either bridge, when the
    allocation succeeds: the handle Create returns is accepted by
    Release, and afterwards native memory is what it was before the
    Create plus one freed block at the handle's address, holding the
    cleared initial context; no exception is raised and the message
    objects are untouched. *)
Theorem create_then_release_leaves_one_freed_block st :
  no_oom 1 (sched st) →
  (∃ p st1 st2,
     createNewPkEncryptionJni st = Done p st1 ∧
     p ≠ 0 ∧ heap st !! p = None ∧
     releasePkEncryptionJni (Thiz p) st1 = Done tt st2 ∧
     heap st2 = <[p := Freed (EncCtx (olm_clear_pk_encryption olm_pk_encryption))]>
                  (heap st) ∧
     objs st2 = objs st ∧ pending st2 = pending st) ∧
  (∃ p st1 st2,
     createNewPkDecryptionJni st = Done p st1 ∧
     p ≠ 0 ∧ heap st !! p = None ∧
     releasePkDecryptionJni (Thiz p) st1 = Done tt st2 ∧
     heap st2 = <[p := Freed (DecCtx (olm_clear_pk_decryption olm_pk_decryption))]>
                  (heap st) ∧
     objs st2 = objs st ∧ pending st2 = pending st).
Proof.
  intros Hoom. destruct st as [h o sc en cl pe];
    cbn [heap objs calls pending sched] in *.
  split.
  - destruct (wp_total _ _ _ (createNewPkEncryptionJni_ok_run h o sc en cl pe Hoom))
      as (p & st1 & Hrun & Hp & Hfresh & Hheap & Hobjs & Hpe).
    destruct st1 as [h1 o1 sc1 en1 cl1 pe1]; cbn [heap objs pending] in *.
    subst h1 o1 pe1.
    destruct (wp_total _ _ _
                (releasePkEncryptionJni_run (Thiz p) _ o sc1 en1 cl1 pe
                   olm_pk_encryption Hp (lookup_insert_eq h p _)))
      as ([] & st2 & Hrel & Hheap2 & Hobjs2 & Hpe2).
    cbn [mNativeId] in Hheap2. rewrite insert_insert_eq in Hheap2.
    by eexists p, _, st2.
  - destruct (wp_total _ _ _ (createNewPkDecryptionJni_ok_run h o sc en cl pe Hoom))
      as (p & st1 & Hrun & Hp & Hfresh & Hheap & Hobjs & Hpe).
    destruct st1 as [h1 o1 sc1 en1 cl1 pe1]; cbn [heap objs pending] in *.
    subst h1 o1 pe1.
    destruct (wp_total _ _ _
                (releasePkDecryptionJni_run (Thiz p) _ o sc1 en1 cl1 pe
                   olm_pk_decryption Hp (lookup_insert_eq h p _)))
      as ([] & st2 & Hrel & Hheap2 & Hobjs2 & Hpe2).
    cbn [mNativeId] in Hheap2. rewrite insert_insert_eq in Hheap2.
    by eexists p, _, st2.
Qed.

(** X4.  SetRecipientKey on a live encryption context never faults,
    whatever the key buffer (null, empty or not) and whether or not the
    view of its bytes can be obtained: the context is still live, every
    other block and the message objects are as they were, and the view
    of the key has been given back (nothing allocated during the call is
    still live).  The pending exception afterwards is the one from
    before, "invalid key", "key JNI allocation OOM" (with native memory
    and the engine log untouched), or the last-error string of the
    context. *)
Theorem setRecipientKeyJni_is_memory_safe thiz aKeyBuffer st e :
  mNativeId thiz ≠ 0 →
  heap st !! mNativeId thiz = Some (Live (EncCtx e)) →
  ∃ st',
    setRecipientKeyJni thiz aKeyBuffer st = Done tt st' ∧
    (∃ e', heap st' !! mNativeId thiz = Some (Live (EncCtx e'))) ∧
    frame_except (mNativeId thiz) (heap st) st' ∧
    leaks_nothing (heap st) st' ∧
    objs st' = objs st ∧
    (pending st' = pending st ∨
     pending st' = Some "invalid key"%string ∨
     (pending st' = Some "key JNI allocation OOM"%string ∧
      heap st' = heap st ∧ calls st' = calls st) ∨
     ∃ e', heap st' !! mNativeId thiz = Some (Live (EncCtx e')) ∧
           pending st' = Some (olm_pk_encryption_last_error e')).
Proof.
  intros Hnn Hctx. destruct st as [h o sc en cl pe];
    cbn [heap objs calls pending] in *.
  destruct (wp_total _ _ _
              (setRecipientKeyJni_run thiz aKeyBuffer h o sc en cl pe e Hnn Hctx))
    as ([] & st' & Hrun & Hpost).
  by exists st'.
Qed.

(** X5.  SetRecipientKey with a key the engine accepts: no exception is
    raised, the context holds the state the engine produced from the
    key, and the engine was called once, with exactly the bytes of the
    caller's array. *)
Theorem setRecipientKeyJni_stores_accepted_key thiz key st e :
  let outcome := olm_pk_encryption_set_recipient_key e key in
  mNativeId thiz ≠ 0 →
  heap st !! mNativeId thiz = Some (Live (EncCtx e)) →
  no_oom 1 (sched st) →
  outcome.1 ≠ olm_error →
  ∃ st' keyPtr,
    setRecipientKeyJni thiz (Some key) st = Done tt st' ∧
    pending st' = pending st ∧
    heap st' !! mNativeId thiz = Some (Live (EncCtx outcome.2)) ∧
    calls st' = [Call fn_pk_encryption_set_recipient_key (mNativeId thiz)
                   [keyPtr] [key]] ++ calls st.
Proof.
  intros outcome Hnn Hctx Hoom Hok. destruct st as [h o sc en cl pe];
    cbn [heap sched calls pending] in *.
  destruct (wp_total _ _ _
              (setRecipientKeyJni_accepted_run thiz key h o sc en cl pe e
                 Hnn Hctx Hoom Hok))
    as ([] & st' & Hrun & Hpe & Hheap & keyPtr & Hcalls).
  by exists st', keyPtr.
Qed.



(** X8.  A successful Encrypt: when the five allocations succeed, the
    provider has the random bytes and the engine succeeds, filling its
    three output buffers with NUL-free MAC and ephemeral-key text, the
    call returns exactly the engine's ciphertext, assigns the MAC and
    the ephemeral key to the message's [mMac] and [mEphemeralKey] fields
    and to nothing else ([mCipherText] is not written by native code),
    raises no exception, leaves the context in the state the engine
    produced, and has drawn exactly the engine's random length from the
    provider. *)
Theorem encryptJni_success thiz plain aEncryptedMsg st e msg :
  let ctlen := olm_pk_ciphertext_length e (GetArrayLength plain) in
  let maclen := olm_pk_mac_length e in
  let rlen := olm_pk_encrypt_random_length e in
  let random := take (N.to_nat rlen) (entropy st) in
  let sealed := olm_pk_encrypt e plain ctlen maclen olm_pk_key_length random in
  let ct := sealed.1.1.1.2 in
  let mac := sealed.1.1.2 in
  let eph := sealed.1.2 in
  mNativeId thiz ≠ 0 →
  heap st !! mNativeId thiz = Some (Live (EncCtx e)) →
  aEncryptedMsg ≠ 0 →
  objs st !! aEncryptedMsg = Some msg →
  "mMac"%string ∈ declared msg →
  "mEphemeralKey"%string ∈ declared msg →
  no_oom 5 (sched st) →
  (N.to_nat rlen ≤ length (entropy st))%nat →
  sealed.1.1.1.1 ≠ olm_error →
  length ct = N.to_nat ctlen →
  length mac = N.to_nat maclen →
  length eph = N.to_nat olm_pk_key_length →
  x00 ∉ mac →
  x00 ∉ eph →
  ∃ st',
    encryptJni thiz (Some plain) aEncryptedMsg st = Done (Some ct) st' ∧
    objs st' = <[aEncryptedMsg :=
                  SetStringField "mEphemeralKey" eph
                    (SetStringField "mMac" mac msg)]> (objs st) ∧
    pending st' = pending st ∧
    heap st' !! mNativeId thiz = Some (Live (EncCtx sealed.2)) ∧
    entropy st' = drop (N.to_nat rlen) (entropy st).
Proof.
  intros ctlen maclen rlen random sealed ct mac eph
    Hnn Hctx Hm Hobj Hf2 Hf3 Hoom Hen Hok Hlc Hlm Hle Hzm Hze.
  destruct (wp_total _ _ _
              (encryptJni_success_run thiz plain aEncryptedMsg st e msg 0
                 Hnn Hctx Hm Hobj Hf2 Hf3 Hoom Hen Hok Hlc Hlm Hle Hzm Hze))
    as (ret & st' & Hrun & -> & Hobjs & Hpe & Hheap & _ & Hent & _).
  by exists st'.
Qed.

(** X9.  Encrypt does not test its message argument: on a live context,
    with a plaintext whose view could be obtained, a null message
    reference is passed to [GetObjectClass], which the JNI forbids.
    (Decrypt tests the same argument and raises "invalid encrypted
    message".) *)
Theorem encryptJni_null_message_is_not_checked thiz plain st e :
  mNativeId thiz ≠ 0 →
  heap st !! mNativeId thiz = Some (Live (EncCtx e)) →
  no_oom 1 (sched st) →
  encryptJni thiz (Some plain) 0 st = Fault "GetObjectClass on a null reference".
Proof.
  intros Hnn Hctx Hoom.
  destruct (next_outcome (sched st)) as [out rest] eqn:Hn.
  destruct (no_oom_next _ _ _ _ Hoom Hn) as [[junk ->] _].
  unfold encryptJni, getPkEncryptionInstanceId.
  rewrite (nonnull_true _ Hnn).
  apply bind_fault.
  erewrite bind_done; [| unfold GetByteArrayElements, allocate; by rewrite Hn ].
  rewrite (nonnull_true _ (fresh_ptr_nonnull _)).
  by apply bind_fault.
Qed.


(** X11.  GenerateKey leaves no random bytes behind: of the blocks
    allocated during the call, the only ones it frees hold nothing but
    zero bytes, of the engine's random length, on every path. *)
Theorem generateKeyJni_wipes_what_it_frees thiz st d :
  mNativeId thiz ≠ 0 →
  heap st !! mNativeId thiz = Some (Live (DecCtx d)) →
  ∃ ret st',
    generateKeyJni thiz st = Done ret st' ∧
    ∀ p bs, heap st !! p = None →
            heap st' !! p = Some (Freed (Buf Native bs)) →
            bs = replicate (N.to_nat olm_pk_generate_key_random_length) x00.
Proof.
  intros Hnn Hctx. destruct st as [h o sc en cl pe]; cbn [heap] in *.
  destruct (wp_total _ _ _ (generateKeyJni_run thiz h o sc en cl pe d Hnn Hctx))
    as (ret & st' & Hrun & _ & Hzero & _).
  by exists ret, st'.
Qed.

(** X12.  A successful GenerateKey: when both allocations succeed, the
    provider has the random bytes and the engine succeeds with a key of
    the key length, the call returns exactly the engine's public key,
    raises no exception, leaves the context in the state the engine
    produced (the one holding the key pair), and has drawn exactly the
    engine's random length from the provider. *)
Theorem generateKeyJni_success thiz st d :
  let rlen := olm_pk_generate_key_random_length in
  let outcome :=
    olm_pk_generate_key d olm_pk_key_length (take (N.to_nat rlen) (entropy st)) in
  mNativeId thiz ≠ 0 →
  heap st !! mNativeId thiz = Some (Live (DecCtx d)) →
  no_oom 2 (sched st) →
  (N.to_nat rlen ≤ length (entropy st))%nat →
  outcome.1.1 ≠ olm_error →
  length outcome.1.2 = N.to_nat olm_pk_key_length →
  ∃ st',
    generateKeyJni thiz st = Done (Some outcome.1.2) st' ∧
    pending st' = pending st ∧
    heap st' !! mNativeId thiz = Some (Live (DecCtx outcome.2)) ∧
    entropy st' = drop (N.to_nat rlen) (entropy st).
Proof.
  intros rlen outcome Hnn Hctx Hoom Hen Hok Hlen.
  destruct st as [h o sc en cl pe]; cbn [heap sched entropy pending] in *.
  destruct (wp_total _ _ _
              (generateKeyJni_success_run thiz h o sc en cl pe d
                 Hnn Hctx Hoom Hen Hok Hlen))
    as (ret & st' & Hrun & -> & Hpost).
  by exists st'.
Qed.

(** X13.  A null handle is turned away by both operations of the
    decryption bridge with the exception "invalid Decryption ptr=NULL":
    nothing is returned, and native memory, the message objects, the
    random provider and the engine log are untouched.  (The operations
    of the encryption bridge only log this condition.) *)
Theorem decryption_null_handle_is_rejected aEncryptedMsg st :
  generateKeyJni (Thiz 0) st
    = Done None (set_pending "invalid Decryption ptr=NULL" st) ∧
  decryptJni (Thiz 0) aEncryptedMsg st
    = Done None (set_pending "invalid Decryption ptr=NULL" st).
Proof. by destruct st. Qed.

(** X14.  Decrypt checks its message before anything else is done with
    it: with a non-null handle, a null message reference raises "invalid
    encrypted message", and a message whose [mCipherText] field is
    declared but holds null raises "no ciphertext"; in both cases
    nothing is returned, the context is not even read, and native
    memory and the engine log are untouched. *)
Theorem decryptJni_rejects_missing_message thiz aEncryptedMsg st msg :
  mNativeId thiz ≠ 0 →
  aEncryptedMsg ≠ 0 →
  objs st !! aEncryptedMsg = Some msg →
  "mCipherText"%string ∈ declared msg →
  slots msg !! "mCipherText"%string = None →
  decryptJni thiz 0 st = Done None (set_pending "invalid encrypted message" st) ∧
  decryptJni thiz aEncryptedMsg st = Done None (set_pending "no ciphertext" st).
Proof.
  intros Hnn Hm Hobj Hdecl Hnone. split.
  - unfold decryptJni, getPkDecryptionInstanceId.
    rewrite (nonnull_true _ Hnn). by destruct st.
  - destruct st as [h o sc en cl pe]; cbn [objs] in *.
    cut (wp False (decryptJni thiz aEncryptedMsg)
           (λ ret st', ret = None ∧
              st' = set_pending "no ciphertext" (State h o sc en cl pe))
           (State h o sc en cl pe)).
    { by intros (ret & st' & Hrun & -> & ->)%wp_total. }
    unfold decryptJni. wp_run. done.
Qed.


(** X16.  Decrypt hands the engine a scratch copy of the ciphertext:
    every call of the engine's decrypt made during a Decrypt gets, as
    its ciphertext buffer, a block that was allocated during the call
    and is freed before it returns, holding the text of the message's
    [mCipherText] field; and every string view obtained during the call
    still holds the text of a field of the message followed by NUL, so
    what the engine does to its ciphertext buffer never reaches the
    caller's strings. *)
Theorem decryptJni_decrypts_a_scratch_copy thiz aEncryptedMsg st d :
  mNativeId thiz ≠ 0 →
  heap st !! mNativeId thiz = Some (Live (DecCtx d)) →
  within_capacity d →
  ∃ ret st' new,
    decryptJni thiz aEncryptedMsg st = Done ret st' ∧
    calls st' = new ++ calls st ∧
    (∀ c, c ∈ new → call_fn c = fn_pk_decrypt →
       ∃ eph mac tmp pt ephB macB ctB r,
         call_bufs c = [eph; mac; tmp; pt] ∧
         call_inputs c = [ephB; macB; ctB] ∧
         field_of st aEncryptedMsg "mCipherText" = Some ctB ∧
         heap st !! tmp = None ∧
         heap st' !! tmp = Some (Freed (Buf Native r))) ∧
    (∀ p bs, heap st !! p = None → heap st' !! p ≫= view_bytes = Some bs →
       ∃ fid s, field_of st aEncryptedMsg fid = Some s ∧ bs = s ++ [x00]).
Proof.
  intros Hnn Hctx Hcap. destruct st as [h o sc en cl pe];
    cbn [heap calls] in *.
  destruct (wp_total _ _ _
              (decryptJni_run thiz aEncryptedMsg h o sc en cl pe d Hnn Hctx Hcap))
    as (ret & st' & Hrun & _ & _ & Hviews & (new & Hcalls & Hdec) & _).
  by exists ret, st', new.
Qed.

(** X17.  Every successful Decrypt leaks a string view: the characters
    of the ciphertext are obtained twice and given back once, so when a
    plaintext is returned, a view of [mCipherText] that was obtained
    during the call is still live. *)
Theorem decryptJni_success_leaves_a_view thiz aEncryptedMsg st d :
  mNativeId thiz ≠ 0 →
  heap st !! mNativeId thiz = Some (Live (DecCtx d)) →
  within_capacity d →
  ∃ ret st',
    decryptJni thiz aEncryptedMsg st = Done ret st' ∧
    (is_Some ret →
       pending st' = pending st ∧
       ∃ p ct,
         heap st !! p = None ∧
         field_of st aEncryptedMsg "mCipherText" = Some ct ∧
         heap st' !! p = Some (Live (Buf JniView (ct ++ [x00])))).
Proof.
  intros Hnn Hctx Hcap. destruct st as [h o sc en cl pe];
    cbn [heap pending] in *.
  destruct (wp_total _ _ _
              (decryptJni_run thiz aEncryptedMsg h o sc en cl pe d Hnn Hctx Hcap))
    as (ret & st' & Hrun & _ & _ & _ & _ & _ & _ & Hret).
  exists ret, st'. split; [done |].
  intros [pt ->]. exact Hret.
Qed.

(** X18.  A successful Decrypt: when the six allocations succeed and
    the engine, given the message's three fields, reports a length [n]
    within the capacity and has written at least [n] bytes, the call
    returns exactly the first [n] bytes the engine wrote, raises no
    exception, writes to no message object and leaves the context in
    the state the engine produced. *)
Theorem decryptJni_success thiz aEncryptedMsg st d msg ct mac eph :
  let maxlen := olm_pk_max_plaintext_length d (GetStringUTFLength ct) in
  let opened := olm_pk_decrypt d eph mac ct maxlen in
  let n := opened.1.1.1 in
  mNativeId thiz ≠ 0 →
  heap st !! mNativeId thiz = Some (Live (DecCtx d)) →
  aEncryptedMsg ≠ 0 →
  objs st !! aEncryptedMsg = Some msg →
  "mCipherText"%string ∈ declared msg →
  "mMac"%string ∈ declared msg →
  "mEphemeralKey"%string ∈ declared msg →
  slots msg !! "mCipherText"%string = Some ct →
  slots msg !! "mMac"%string = Some mac →
  slots msg !! "mEphemeralKey"%string = Some eph →
  no_oom 6 (sched st) →
  n ≠ olm_error →
  n ≤ maxlen →
  (N.to_nat n ≤ length opened.1.2)%nat →
  ∃ st',
    decryptJni thiz aEncryptedMsg st
      = Done (Some (take (N.to_nat n) opened.1.2)) st' ∧
    pending st' = pending st ∧
    objs st' = objs st ∧
    heap st' !! mNativeId thiz = Some (Live (DecCtx opened.2)).
Proof.
  intros maxlen opened n Hnn Hctx Hm Hobj Hc1 Hc2 Hc3 Hs1 Hs2 Hs3 Hoom Hok Hle Hlen.
  destruct (wp_total _ _ _
              (decryptJni_success_run thiz aEncryptedMsg st d msg ct mac eph 0
                 Hnn Hctx Hm Hobj Hc1 Hc2 Hc3 Hs1 Hs2 Hs3 Hoom Hok Hle Hlen))
    as (ret & st' & Hrun & -> & Hpe & Hobjs & Hheap & _).
  by exists st'.
Qed.

(** X19.  Round trip.  Encrypt a plaintext through an encryption bridge,
    store the returned ciphertext in the message's [mCipherText] field,
    and Decrypt the message through a decryption bridge: if all
    allocations succeed, the provider has the random bytes, the engine's
    encrypt succeeds with NUL-free MAC and key text of the announced
    lengths, and the engine's decrypt, given exactly what encrypt
    produced, recovers the plaintext, then the bridge returns the
    plaintext and raises no exception: what crosses the boundary in
    between (byte array, fields of the message, string views, scratch
    copy) loses nothing. *)
Theorem round_trip_returns_plaintext enc dec plain aEncryptedMsg st e d msg :
  let ctlen := olm_pk_ciphertext_length e (GetArrayLength plain) in
  let maclen := olm_pk_mac_length e in
  let rlen := olm_pk_encrypt_random_length e in
  let random := take (N.to_nat rlen) (entropy st) in
  let sealed := olm_pk_encrypt e plain ctlen maclen olm_pk_key_length random in
  let ct := sealed.1.1.1.2 in
  let mac := sealed.1.1.2 in
  let eph := sealed.1.2 in
  let maxlen := olm_pk_max_plaintext_length d (GetStringUTFLength ct) in
  let opened := olm_pk_decrypt d eph mac ct maxlen in
  mNativeId enc ≠ 0 →
  heap st !! mNativeId enc = Some (Live (EncCtx e)) →
  mNativeId dec ≠ 0 →
  heap st !! mNativeId dec = Some (Live (DecCtx d)) →
  aEncryptedMsg ≠ 0 →
  objs st !! aEncryptedMsg = Some msg →
  "mCipherText"%string ∈ declared msg →
  "mMac"%string ∈ declared msg →
  "mEphemeralKey"%string ∈ declared msg →
  no_oom 11 (sched st) →
  (N.to_nat rlen ≤ length (entropy st))%nat →
  sealed.1.1.1.1 ≠ olm_error →
  length ct = N.to_nat ctlen →
  length mac = N.to_nat maclen →
  length eph = N.to_nat olm_pk_key_length →
  x00 ∉ mac →
  x00 ∉ eph →
  opened.1.1.1 ≠ olm_error →
  opened.1.1.1 ≤ maxlen →
  N.to_nat opened.1.1.1 = length plain →
  take (length plain) opened.1.2 = plain →
  ∃ st',
    round_trip enc dec plain aEncryptedMsg st = Done (Some plain) st' ∧
    pending st' = pending st.
Proof.
  intros ctlen maclen rlen random sealed ct mac eph maxlen opened.
  intros Hne Hce Hnd Hcd Hm Hobj Hf1 Hf2 Hf3 Hoom Hen.
  subst opened maxlen eph mac ct.
  destruct sealed as [[[[r ctB] macB] ephB] e'] eqn:Hseal. cbn [fst snd].
  destruct (olm_pk_decrypt d ephB macB ctB _) as [[[n ct'] ptB] d'] eqn:Hopen.
  cbn [fst snd].
  intros Hr Hlc Hlm Hle Hzm Hze Hn Hnle Hnlen Hpt.
  subst sealed random rlen maclen ctlen.
  destruct st as [h o sc en cl pe];
    cbn [heap sched objs calls pending entropy] in *.
  cut (wp False (round_trip enc dec plain aEncryptedMsg) (λ ret st',
         ret = Some plain ∧ pending st' = pe) (State h o sc en cl pe)).
  { intros (ret & st' & Hrun & -> & ?)%wp_total. by exists st'. }
  assert (Hdiff : mNativeId dec ≠ mNativeId enc) by congruence.
  pose proof (encryptJni_success_run enc plain aEncryptedMsg
                (State h o sc en cl pe) e msg 6) as Henc.
  lazy zeta in Henc. cbn [heap sched objs calls pending entropy] in Henc.
  rewrite Hseal in Henc. cbn [fst snd] in Henc.
  specialize (Henc Hne Hce Hm Hobj Hf2 Hf3 Hoom Hen Hr Hlc Hlm Hle Hzm Hze).
  unfold round_trip, Encrypt. apply wp_bind, wp_bind.
  eapply wp_mono; [| exact Henc]. clear Henc.
  intros ret st1 (-> & Hobjs & Hpend & Hh & Hframe & Hent & Hoom1).
  destruct st1 as [h1 o1 sc1 en1 cl1 pe1];
    cbn [heap sched objs calls pending entropy] in *.
  st_norm.
  repeat lazymatch goal with
         | |- wp _ (decryptJni _ _) _ _ => fail
         | _ => wp_step
         end.
  eapply wp_mono;
    [| eapply (decryptJni_success_run dec aEncryptedMsg _ d
                 (SetStringField "mCipherText" ctB
                    (SetStringField "mEphemeralKey" ephB
                       (SetStringField "mMac" macB msg)))
                 ctB macB ephB 0) ];
    cbn [heap sched objs calls pending entropy]; rewrite ?Hopen; cbn [fst snd].
  - intros ret st2 (-> & Hp2 & _). cbn [pending] in Hp2.
    split; [| exact (eq_trans Hp2 Hpend)]. f_equal. rewrite Hnlen. exact Hpt.
  - done.
  - apply Hframe; done.
  - done.
  - subst o1. rewrite (alter_known _ _ aEncryptedMsg _ (lookup_insert_eq _ _ _)).
    by rewrite lookup_insert_eq.
  - done.
  - done.
  - done.
  - cbn [SetStringField slots]. by rewrite lookup_insert_eq.
  - cbn [SetStringField slots].
    by rewrite lookup_insert_ne, lookup_insert_ne, lookup_insert_eq.
  - cbn [SetStringField slots]. by rewrite lookup_insert_ne, lookup_insert_eq.
  - done.
  - done.
  - done.
  - rewrite Hnlen, <- Hpt at 1. rewrite length_take. clear. lia.
Qed.

(** X20.  When the engine's encrypt returns the error sentinel, Encrypt
    returns null and raises the engine's last-error string for the
    context, as it is after the failed operation; the context stays
    live in that state, and no message object has been written to. *)
Theorem encryptJni_engine_failure thiz plain aEncryptedMsg st e msg :
  let ctlen := olm_pk_ciphertext_length e (GetArrayLength plain) in
  let maclen := olm_pk_mac_length e in
  let rlen := olm_pk_encrypt_random_length e in
  let random := take (N.to_nat rlen) (entropy st) in
  let sealed := olm_pk_encrypt e plain ctlen maclen olm_pk_key_length random in
  mNativeId thiz ≠ 0 →
  heap st !! mNativeId thiz = Some (Live (EncCtx e)) →
  aEncryptedMsg ≠ 0 →
  objs st !! aEncryptedMsg = Some msg →
  "mMac"%string ∈ declared msg →
  "mEphemeralKey"%string ∈ declared msg →
  no_oom 5 (sched st) →
  (N.to_nat rlen ≤ length (entropy st))%nat →
  sealed.1.1.1.1 = olm_error →
  ∃ st',
    encryptJni thiz (Some plain) aEncryptedMsg st = Done None st' ∧
    pending st' = Some (olm_pk_encryption_last_error sealed.2) ∧
    heap st' !! mNativeId thiz = Some (Live (EncCtx sealed.2)) ∧
    objs st' = objs st.
Proof.
  intros ctlen maclen rlen random sealed Hnn Hctx Hm Hobj Hf2 Hf3 Hoom Hen Hfail.
  destruct st as [h o sc en cl pe]; cbn [heap sched objs entropy] in *.
  subst random rlen maclen ctlen.
  cut (wp False (encryptJni thiz (Some plain) aEncryptedMsg) (λ ret st',
         ret = None ∧
         pending st' = Some (olm_pk_encryption_last_error sealed.2) ∧
         heap st' !! mNativeId thiz = Some (Live (EncCtx sealed.2)) ∧
         objs st' = o)
         (State h o sc en cl pe)).
  { intros (ret & st' & Hrun & -> & ?)%wp_total. by exists st'. }
  unfold encryptJni, encrypt_block. wp_run; subst sealed.
  - cbn [fst snd]. split_and!; [done | done | by lookup_norm | done].
  - by_outcome Hfail.
Qed.

(** X21.  When the engine's decrypt returns the error sentinel (a
    message that fails authentication, for one), Decrypt returns null
    and raises the engine's last-error string for the context, as it is
    after the failed operation; the context stays live in that state
    and no message object has been written to. *)
Theorem decryptJni_engine_failure thiz aEncryptedMsg st d msg ct mac eph :
  let maxlen := olm_pk_max_plaintext_length d (GetStringUTFLength ct) in
  let opened := olm_pk_decrypt d eph mac ct maxlen in
  mNativeId thiz ≠ 0 →
  heap st !! mNativeId thiz = Some (Live (DecCtx d)) →
  aEncryptedMsg ≠ 0 →
  objs st !! aEncryptedMsg = Some msg →
  "mCipherText"%string ∈ declared msg →
  "mMac"%string ∈ declared msg →
  "mEphemeralKey"%string ∈ declared msg →
  slots msg !! "mCipherText"%string = Some ct →
  slots msg !! "mMac"%string = Some mac →
  slots msg !! "mEphemeralKey"%string = Some eph →
  no_oom 6 (sched st) →
  opened.1.1.1 = olm_error →
  ∃ st',
    decryptJni thiz aEncryptedMsg st = Done None st' ∧
    pending st' = Some (olm_pk_decryption_last_error opened.2) ∧
    heap st' !! mNativeId thiz = Some (Live (DecCtx opened.2)) ∧
    objs st' = objs st.
Proof.
  intros maxlen opened Hnn Hctx Hm Hobj Hc1 Hc2 Hc3 Hs1 Hs2 Hs3 Hoom Hfail.
  destruct st as [h o sc en cl pe]; cbn [heap sched objs] in *.
  subst maxlen.
  cut (wp False (decryptJni thiz aEncryptedMsg) (λ ret st',
         ret = None ∧
         pending st' = Some (olm_pk_decryption_last_error opened.2) ∧
         heap st' !! mNativeId thiz = Some (Live (DecCtx opened.2)) ∧
         objs st' = o)
         (State h o sc en cl pe)).
  { intros (ret & st' & Hrun & -> & ?)%wp_total. by exists st'. }
  unfold decryptJni, decrypt_block. wp_run; subst opened.
  - cbn [fst snd]. split_and!; [done | done | by lookup_norm | done].
  - by_outcome Hfail.
  - by_outcome Hfail.
Qed.

(** X22.  When the view of the MAC string cannot be obtained, Decrypt
    reports it under the name of another buffer: the exception reads
    "ciphertext JNI allocation OOM".  Nothing is returned and the engine
    is not called. *)
Theorem decryptJni_mac_view_oom_is_reported_as_ciphertext
    thiz aEncryptedMsg st msg ct mac junk1 junk2 rest :
  mNativeId thiz ≠ 0 →
  aEncryptedMsg ≠ 0 →
  objs st !! aEncryptedMsg = Some msg →
  "mCipherText"%string ∈ declared msg →
  "mMac"%string ∈ declared msg →
  slots msg !! "mCipherText"%string = Some ct →
  slots msg !! "mMac"%string = Some mac →
  sched st = Some junk1 :: Some junk2 :: None :: rest →
  ∃ st',
    decryptJni thiz aEncryptedMsg st = Done None st' ∧
    pending st' = Some "ciphertext JNI allocation OOM"%string ∧
    calls st' = calls st.
Proof.
  intros Hnn Hm Hobj Hc1 Hc2 Hs1 Hs2 Hsched.
  destruct st as [h o sc en cl pe]; cbn [heap sched objs calls] in *. subst sc.
  cut (wp False (decryptJni thiz aEncryptedMsg) (λ ret st',
         ret = None ∧
         pending st' = Some "ciphertext JNI allocation OOM"%string ∧
         calls st' = cl)
         (State h o (Some junk1 :: Some junk2 :: None :: rest) en cl pe)).
  { intros (ret & st' & Hrun & -> & ?)%wp_total. by exists st'. }
  unfold decryptJni. st_norm. repeat first [wp_alloc_listed | wp_step].
  done.
Qed.

End Extras.

(** * The further properties at concrete inputs, on the stand-in engine *)

Ltac not_elem_of_solve :=
  let H := fresh "H" in
  intros H;
  repeat (apply elem_of_cons in H as [H|H]; [discriminate H |]);
  by apply elem_of_nil in H.

(** The stand-in engine keeps to the capacity it is given. *)
Lemma toy_decrypt_within_capacity d : within_capacity (E := Toy.engine) d.
Proof.
  intros eph mac ct maxlen. cbn. unfold Toy.decrypt.
  repeat case_match; cbn [fst snd]; auto.
  right. by apply N.ltb_ge.
Qed.

Lemma create_then_release_leaves_one_freed_block_witness :
  let st := Toy.boot [] [] in
  ∃ p st1 st2,
    createNewPkDecryptionJni st = Done p st1 ∧
    releasePkDecryptionJni (Thiz p) st1 = Done tt st2 ∧
    heap st2 = {[ p := Freed (Toy.dec_ctx (Toy.Dec [] "SUCCESS")) ]}.
Proof.
  intros st.
  destruct (create_then_release_leaves_one_freed_block (E := Toy.engine) st)
    as [_ (p & st1 & st2 & Hnew & _ & _ & Hrel & Hheap & _)].
  - by vm_compute.
  - by exists p, st1, st2.
Defined.

Lemma setRecipientKeyJni_is_memory_safe_witness :
  let st := Toy.with_encryption [] [None] [] in
  ∃ st',
    setRecipientKeyJni (Thiz 1) (Some [x61; x62]) st = Done tt st' ∧
    frame_except 1 (heap st) st' ∧
    leaks_nothing (heap st) st'.
Proof.
  intros st.
  destruct (setRecipientKeyJni_is_memory_safe (E := Toy.engine)
              (Thiz 1) (Some [x61; x62]) st (Toy.Enc [] "SUCCESS"))
    as (st' & Hrun & _ & Hframe & Hleak & _).
  - done.
  - reflexivity.
  - by exists st'.
Defined.

Lemma setRecipientKeyJni_stores_accepted_key_witness :
  let st := Toy.with_encryption [] [] [] in
  ∃ st',
    setRecipientKeyJni (Thiz 1) (Some [x36; x38; x36; x35]) st = Done tt st' ∧
    pending st' = None ∧
    heap st' !! 1
      = Some (Live (Toy.enc_ctx (Toy.Enc [x36; x38; x36; x35] "SUCCESS"))).
Proof.
  intros st.
  destruct (setRecipientKeyJni_stores_accepted_key (E := Toy.engine)
              (Thiz 1) [x36; x38; x36; x35] st (Toy.Enc [] "SUCCESS"))
    as (st' & keyPtr & Hrun & Hpe & Hheap & _).
  - done.
  - reflexivity.
  - by vm_compute.
  - by vm_compute.
  - exists st'. split_and!; [exact Hrun | exact Hpe | exact Hheap].
Defined.



Lemma encryptJni_success_witness :
  let st := Toy.with_encryption [x36; x38; x36; x35] [] [x6c; x6c] in
  ∃ st',
    encryptJni (Thiz 1) (Some [x68; x65; x6c; x6c; x6f]) 1 st
      = Done (Some [x36; x38; x36; x35; x36; x63; x36; x63; x36; x66]) st' ∧
    objs st' = {[ 1 := SetStringField "mEphemeralKey" [x36; x63; x36; x63]
                         (SetStringField "mMac" [x62; x32] Toy.EncryptedMsg) ]} ∧
    pending st' = None.
Proof.
  intros st.
  destruct (encryptJni_success (E := Toy.engine)
              (Thiz 1) [x68; x65; x6c; x6c; x6f] 1 st
              (Toy.Enc [x36; x38; x36; x35] "SUCCESS") Toy.EncryptedMsg)
    as (st' & Hrun & Hobjs & Hpe & _).
  - done.
  - reflexivity.
  - done.
  - reflexivity.
  - elem_of_list_solve.
  - elem_of_list_solve.
  - by vm_compute.
  - vm_compute. lia.
  - by vm_compute.
  - reflexivity.
  - reflexivity.
  - reflexivity.
  - change (x00 ∉ [x62; x32]). not_elem_of_solve.
  - change (x00 ∉ [x36; x63; x36; x63]). not_elem_of_solve.
  - exists st'. split_and!; [exact Hrun | | exact Hpe].
    rewrite Hobjs. apply insert_singleton_eq.
Defined.

Lemma encryptJni_null_message_is_not_checked_witness :
  encryptJni (Thiz 1) (Some [x68; x65; x6c; x6c; x6f]) 0
    (Toy.with_encryption [x36; x38; x36; x35] [] [x6c; x6c])
  = Fault "GetObjectClass on a null reference".
Proof.
  apply (encryptJni_null_message_is_not_checked (E := Toy.engine)
           (Thiz 1) [x68; x65; x6c; x6c; x6f]
           (Toy.with_encryption [x36; x38; x36; x35] [] [x6c; x6c])
           (Toy.Enc [x36; x38; x36; x35] "SUCCESS")).
  - done.
  - reflexivity.
  - by vm_compute.
Defined.


Lemma generateKeyJni_wipes_what_it_frees_witness :
  let st := Toy.with_decryption [] [] [x68; x65] Toy.EncryptedMsg in
  ∃ ret st',
    generateKeyJni (Thiz 1) st = Done ret st' ∧
    ∀ p bs, heap st !! p = None →
            heap st' !! p = Some (Freed (Buf Native bs)) →
            bs = [x00; x00].
Proof.
  intros st.
  apply (generateKeyJni_wipes_what_it_frees (E := Toy.engine)
           (Thiz 1) st (Toy.Dec [] "SUCCESS")).
  - done.
  - reflexivity.
Defined.

Lemma generateKeyJni_success_witness :
  let st := Toy.with_decryption [] [] [x68; x65] Toy.EncryptedMsg in
  ∃ st',
    generateKeyJni (Thiz 1) st = Done (Some [x36; x38; x36; x35]) st' ∧
    pending st' = None ∧
    heap st' !! 1
      = Some (Live (Toy.dec_ctx (Toy.Dec [x36; x38; x36; x35] "SUCCESS"))).
Proof.
  intros st.
  destruct (generateKeyJni_success (E := Toy.engine)
              (Thiz 1) st (Toy.Dec [] "SUCCESS"))
    as (st' & Hrun & Hpe & Hheap & _).
  - done.
  - reflexivity.
  - by vm_compute.
  - vm_compute. lia.
  - by vm_compute.
  - reflexivity.
  - exists st'. split_and!; [exact Hrun | exact Hpe | exact Hheap].
Defined.

Lemma decryptJni_rejects_missing_message_witness :
  let st := Toy.with_decryption [] [] [] Toy.EncryptedMsg in
  decryptJni (Thiz 1) 0 st = Done None (set_pending "invalid encrypted message" st) ∧
  decryptJni (Thiz 1) 1 st = Done None (set_pending "no ciphertext" st).
Proof.
  intros st.
  apply (decryptJni_rejects_missing_message (E := Toy.engine)
           (Thiz 1) 1 st Toy.EncryptedMsg).
  - done.
  - done.
  - reflexivity.
  - elem_of_list_solve.
  - reflexivity.
Defined.


Lemma decryptJni_decrypts_a_scratch_copy_witness :
  let st := Toy.with_decryption [x36; x38; x36; x35] [] []
              (JObject (declared Toy.EncryptedMsg)
                 (list_to_map
                    [("mCipherText"%string,
                      [x36; x38; x36; x35; x36; x63; x36; x63; x36; x66]);
                     ("mMac"%string, [x62; x32]);
                     ("mEphemeralKey"%string, [x36; x63; x36; x63])])) in
  ∃ ret st' new,
    decryptJni (Thiz 1) 1 st = Done ret st' ∧
    calls st' = new ++ calls st ∧
    (∀ c, c ∈ new → call_fn c = fn_pk_decrypt →
       ∃ eph mac tmp pt ephB macB ctB r,
         call_bufs c = [eph; mac; tmp; pt] ∧
         call_inputs c = [ephB; macB; ctB] ∧
         field_of st 1 "mCipherText" = Some ctB ∧
         heap st !! tmp = None ∧
         heap st' !! tmp = Some (Freed (Buf Native r))) ∧
    (∀ p bs, heap st !! p = None → heap st' !! p ≫= view_bytes = Some bs →
       ∃ fid s, field_of st 1 fid = Some s ∧ bs = s ++ [x00]).
Proof.
  intros st.
  apply (decryptJni_decrypts_a_scratch_copy (E := Toy.engine)
           (Thiz 1) 1 st (Toy.Dec [x36; x38; x36; x35] "SUCCESS")).
  - done.
  - reflexivity.
  - apply toy_decrypt_within_capacity.
Defined.

Lemma decryptJni_success_leaves_a_view_witness :
  let st := Toy.with_decryption [x36; x38; x36; x35] [] []
              (JObject (declared Toy.EncryptedMsg)
                 (list_to_map
                    [("mCipherText"%string,
                      [x36; x38; x36; x35; x36; x63; x36; x63; x36; x66]);
                     ("mMac"%string, [x62; x32]);
                     ("mEphemeralKey"%string, [x36; x63; x36; x63])])) in
  ∃ ret st',
    decryptJni (Thiz 1) 1 st = Done ret st' ∧
    (is_Some ret →
       pending st' = pending st ∧
       ∃ p ct,
         heap st !! p = None ∧
         field_of st 1 "mCipherText" = Some ct ∧
         heap st' !! p = Some (Live (Buf JniView (ct ++ [x00])))).
Proof.
  intros st.
  apply (decryptJni_success_leaves_a_view (E := Toy.engine)
           (Thiz 1) 1 st (Toy.Dec [x36; x38; x36; x35] "SUCCESS")).
  - done.
  - reflexivity.
  - apply toy_decrypt_within_capacity.
Defined.

Lemma decryptJni_success_witness :
  let msg := JObject (declared Toy.EncryptedMsg)
               (list_to_map
                  [("mCipherText"%string,
                    [x36; x38; x36; x35; x36; x63; x36; x63; x36; x66]);
                   ("mMac"%string, [x62; x32]);
                   ("mEphemeralKey"%string, [x36; x63; x36; x63])]) in
  let st := Toy.with_decryption [x36; x38; x36; x35] [] [] msg in
  ∃ st',
    decryptJni (Thiz 1) 1 st = Done (Some [x68; x65; x6c; x6c; x6f]) st' ∧
    pending st' = None ∧
    objs st' = objs st.
Proof.
  intros msg st.
  destruct (decryptJni_success (E := Toy.engine)
              (Thiz 1) 1 st (Toy.Dec [x36; x38; x36; x35] "SUCCESS") msg
              [x36; x38; x36; x35; x36; x63; x36; x63; x36; x66]
              [x62; x32] [x36; x63; x36; x63])
    as (st' & Hrun & Hpe & Hobjs & _).
  - done.
  - reflexivity.
  - done.
  - reflexivity.
  - elem_of_list_solve.
  - elem_of_list_solve.
  - elem_of_list_solve.
  - reflexivity.
  - reflexivity.
  - reflexivity.
  - by vm_compute.
  - by vm_compute.
  - vm_compute. discriminate.
  - vm_compute. lia.
  - exists st'. split_and!; [exact Hrun | exact Hpe | exact Hobjs].
Defined.

Lemma round_trip_returns_plaintext_witness :
  let st := State {[ 1 := Live (Toy.enc_ctx (Toy.Enc [x36; x38; x36; x35] "SUCCESS"));
                     2 := Live (Toy.dec_ctx (Toy.Dec [x36; x38; x36; x35] "SUCCESS")) ]}
              {[ 1 := Toy.EncryptedMsg ]} [] [x6c; x6c] [] None in
  ∃ st',
    round_trip (Thiz 1) (Thiz 2) [x68; x65; x6c; x6c; x6f] 1 st
      = Done (Some [x68; x65; x6c; x6c; x6f]) st' ∧
    pending st' = None.
Proof.
  intros st.
  apply (round_trip_returns_plaintext (E := Toy.engine)
           (Thiz 1) (Thiz 2) [x68; x65; x6c; x6c; x6f] 1 st
           (Toy.Enc [x36; x38; x36; x35] "SUCCESS")
           (Toy.Dec [x36; x38; x36; x35] "SUCCESS") Toy.EncryptedMsg).
  - done.
  - reflexivity.
  - done.
  - reflexivity.
  - done.
  - reflexivity.
  - elem_of_list_solve.
  - elem_of_list_solve.
  - elem_of_list_solve.
  - by vm_compute.
  - vm_compute. lia.
  - by vm_compute.
  - reflexivity.
  - reflexivity.
  - reflexivity.
  - change (x00 ∉ [x62; x32]). not_elem_of_solve.
  - change (x00 ∉ [x36; x63; x36; x63]). not_elem_of_solve.
  - by vm_compute.
  - vm_compute. discriminate.
  - reflexivity.
  - reflexivity.
Defined.

Lemma encryptJni_engine_failure_witness :
  let st := State (E := short_mac_engine)
              {[ 1 := Live (EncCtx (E := short_mac_engine)
                              (Toy.Enc [x36; x38; x36; x35] "SUCCESS")) ]}
              {[ 1 := Toy.EncryptedMsg ]} [] [x6c; x6c] [] None in
  ∃ st',
    encryptJni (Thiz 1) (Some [x68; x65; x6c; x6c; x6f]) 1 st = Done None st' ∧
    pending st' = Some "OUTPUT_BUFFER_TOO_SMALL"%string ∧
    objs st' = objs st.
Proof.
  intros st.
  destruct (encryptJni_engine_failure (E := short_mac_engine)
              (Thiz 1) [x68; x65; x6c; x6c; x6f] 1 st
              (Toy.Enc [x36; x38; x36; x35] "SUCCESS") Toy.EncryptedMsg)
    as (st' & Hrun & Hpe & _ & Hobjs).
  - done.
  - reflexivity.
  - done.
  - reflexivity.
  - elem_of_list_solve.
  - elem_of_list_solve.
  - by vm_compute.
  - vm_compute. lia.
  - reflexivity.
  - exists st'. split_and!; [exact Hrun | exact Hpe | exact Hobjs].
Defined.

Lemma decryptJni_engine_failure_witness :
  let msg := JObject (declared Toy.EncryptedMsg)
               (list_to_map
                  [("mCipherText"%string,
                    [x36; x38; x36; x35; x36; x63; x36; x63; x36; x66]);
                   ("mMac"%string, [x30; x30]);
                   ("mEphemeralKey"%string, [x36; x63; x36; x63])]) in
  let st := Toy.with_decryption [x36; x38; x36; x35] [] [] msg in
  ∃ st',
    decryptJni (Thiz 1) 1 st = Done None st' ∧
    pending st' = Some "BAD_MESSAGE_MAC"%string ∧
    heap st' !! 1
      = Some (Live (Toy.dec_ctx (Toy.Dec [x36; x38; x36; x35] "BAD_MESSAGE_MAC"))).
Proof.
  intros msg st.
  destruct (decryptJni_engine_failure (E := Toy.engine)
              (Thiz 1) 1 st (Toy.Dec [x36; x38; x36; x35] "SUCCESS") msg
              [x36; x38; x36; x35; x36; x63; x36; x63; x36; x66]
              [x30; x30] [x36; x63; x36; x63])
    as (st' & Hrun & Hpe & Hheap & _).
  - done.
  - reflexivity.
  - done.
  - reflexivity.
  - elem_of_list_solve.
  - elem_of_list_solve.
  - elem_of_list_solve.
  - reflexivity.
  - reflexivity.
  - reflexivity.
  - by vm_compute.
  - reflexivity.
  - exists st'. split_and!; [exact Hrun | exact Hpe | exact Hheap].
Defined.

Lemma decryptJni_mac_view_oom_is_reported_as_ciphertext_witness :
  let msg := JObject (declared Toy.EncryptedMsg)
               (list_to_map
                  [("mCipherText"%string, [x36; x38]);
                   ("mMac"%string, [x62; x32]);
                   ("mEphemeralKey"%string, [x36; x63; x36; x63])]) in
  let st := Toy.with_decryption [x36; x38; x36; x35]
              [Some x00; Some x00; None] [] msg in
  ∃ st',
    decryptJni (Thiz 1) 1 st = Done None st' ∧
    pending st' = Some "ciphertext JNI allocation OOM"%string ∧
    calls st' = calls st.
Proof.
  intros msg st.
  apply (decryptJni_mac_view_oom_is_reported_as_ciphertext (E := Toy.engine)
           (Thiz 1) 1 st msg [x36; x38] [x62; x32] x00 x00 []).
  - done.
  - done.
  - reflexivity.
  - elem_of_list_solve.
  - elem_of_list_solve.
  - reflexivity.
  - reflexivity.
  - reflexivity.
Defined.
